(** * Space Defenders: the game loop of [game.py]

    A shallow embedding of the frame loop [Game.play] (game.py, lines
    743-892) with the sprites it drives ([Player], [Bullet], [Meteoroid])
    and the parts of [pygame] it calls ([Rect.colliderect],
    [sprite.spritecollide], [sprite.groupcollide], [Group.update]).

    Conventions.
    - Python integers are unbounded: [Z].
    - [meteoroid_speed] starts as the integer [4] and grows by the float
      [0.25]; every value it takes is a multiple of a quarter, which binary
      floating point represents exactly, so it is modelled by a rational.
    - A [pygame.Rect] stores integers; a float assigned to a coordinate is
      rounded to the nearest integer. A float position handed to
      [screen.blit] is cut towards zero.
    - A sprite group keeps its members in insertion order (a [dict] keyed by
      the sprite object): a list. Sprites are compared by object identity;
      a meteoroid carries the identity it was allocated with.
    - Drawing ([screen.blit], [display.update]), sound and logging do not
      touch the state of the run and are left out. The asset folders are
      not part of the code: the number of meteoroid images,
      [len(game.image_meteoroid)], is a parameter, called [frames] below
      (image 0 is the meteoroid, the later ones its explosion). *)

From Stdlib Require Import ZArith QArith Qabs Qround List Permutation Sorted Bool Lia.
Import ListNotations.
Open Scope Z_scope.

(** ** Module-level constants (game.py, lines 55-72) *)

Definition windowwidth : Z := 1280.
Definition windowheight : Z := 720.

(** ** pygame.Rect *)

Module Rect.

Record t : Type := mk { x : Z; y : Z; w : Z; h : Z }.

(** [Rect.colliderect]: two rectangles overlap when their open interiors
    meet; a rectangle of width or height zero overlaps nothing. *)
Definition colliderect (a b : t) : bool :=
  if (w a =? 0) || (h a =? 0) || (w b =? 0) || (h b =? 0) then false
  else
    (Z.min (x a) (x a + w a) <? Z.max (x b) (x b + w b)) &&
    (Z.min (y a) (y a + h a) <? Z.max (y b) (y b + h b)) &&
    (Z.min (x b) (x b + w b) <? Z.max (x a) (x a + w a)) &&
    (Z.min (y b) (y b + h b) <? Z.max (y a) (y a + h a)).

Definition set_x (r : t) (v : Z) : t := mk v (y r) (w r) (h r).
Definition set_y (r : t) (v : Z) : t := mk (x r) v (w r) (h r).

End Rect.

(** Conversion of a Python float to the integer pixel [screen.blit] draws
    at: the float is cut towards zero. *)
Definition int_of_float (q : Q) : Z := Z.quot (Qnum q) (Zpos (Qden q)).

(** Conversion of a Python float to the integer a [Rect] attribute stores
    when the float is assigned to it: the nearest integer, a half going
    away from zero. *)
Definition rect_int_of_float (q : Q) : Z :=
  if Qle_bool 0 q then int_of_float (q + (1 # 2)) else int_of_float (q - (1 # 2)).

(** ** class Window (lines 58-72): the two border sprites *)

Module Window.
Definition init (x : Z) : Rect.t := Rect.mk x 0 11 windowheight.
End Window.

Definition window_left : Rect.t := Window.init (-96).
Definition window_right : Rect.t := Window.init (windowwidth + 96).

(** ** class Bullet (lines 591-619) *)

Module Bullet.

Record t : Type := mk { rect : Rect.t }.

Definition init (x y : Z) : t := mk (Rect.mk (x + 140) (y + 30) 15 12).

Definition update (speed : Z) (self : t) : t :=
  mk (Rect.set_x (rect self) (Rect.x (rect self) + speed)).

End Bullet.

(** ** class Meteoroid (lines 623-673) *)

Module Meteoroid.

(** [ident] stands for the identity of the Python object. *)
Record t : Type := mk { ident : nat; rect : Rect.t; state : Z }.

Definition init (i : nat) (y : Z) : t :=
  mk i (Rect.mk windowwidth y 38 33) 0.

Definition set_state (self : t) (s : Z) : t := mk (ident self) (rect self) s.

(** [update]: the first component tells whether [self.kill()] ran.
    [frames] is [len(game.image_meteoroid)], the number of images in the
    meteoroid asset folder. *)
Definition update (frames : Z) (speed : Q) (self : t) : bool * t :=
  let '(killed, s) :=
    if state self + 1 =? frames then (true, state self)
    else if 0 <? state self then (false, state self + 1)
    else (false, state self) in
  (killed,
   mk (ident self)
      (Rect.set_x (rect self)
         (rect_int_of_float (inject_Z (Rect.x (rect self)) - speed)))
      s).

End Meteoroid.

(** ** pygame.sprite: groups and collision queries *)

Module Sprite.

(** [spritecollide(sprite, group, True)]: the members of [group] whose
    rectangle overlaps the sprite's are killed and returned; the second
    component is the group that is left. *)
Definition spritecollide {S : Type} (rect_of : S -> Rect.t)
    (sprite : Rect.t) (group : list S) : list S * list S :=
  partition (fun s => Rect.colliderect sprite (rect_of s)) group.

(** [groupcollide(groupa, groupb, False, True)]: every member of [groupa]
    is looked up in turn with [spritecollide(s, groupb, True)], so a
    member of [groupb] killed for one sprite is gone for the next ones.
    The result is the dictionary (in key order) with the group [groupb]
    that is left. *)
Fixpoint groupcollide {A B : Type} (rect_a : A -> Rect.t) (rect_b : B -> Rect.t)
    (groupa : list A) (groupb : list B) : list (A * list B) * list B :=
  match groupa with
  | [] => ([], groupb)
  | s :: rest =>
      let '(collision, groupb1) := spritecollide rect_b (rect_a s) groupb in
      let '(crashed, groupb2) := groupcollide rect_a rect_b rest groupb1 in
      (match collision with
       | [] => crashed
       | _ :: _ => (s, collision) :: crashed
       end, groupb2)
  end.

(** [Group.remove(sprite)] and [Group.add(sprite)] on meteoroids. *)
Definition remove (sprite : Meteoroid.t) (group : list Meteoroid.t) : list Meteoroid.t :=
  filter (fun m => negb (Nat.eqb (Meteoroid.ident m) (Meteoroid.ident sprite))) group.

Definition has (sprite : Meteoroid.t) (group : list Meteoroid.t) : bool :=
  existsb (fun m => Nat.eqb (Meteoroid.ident m) (Meteoroid.ident sprite)) group.

Definition add (sprite : Meteoroid.t) (group : list Meteoroid.t) : list Meteoroid.t :=
  if has sprite group then group else group ++ [sprite].

(** [Group.update(speed)] on meteoroids: every member is updated; the
    ones that killed themselves leave the group. *)
Fixpoint update_meteoroids (frames : Z) (speed : Q) (group : list Meteoroid.t)
    : list Meteoroid.t :=
  match group with
  | [] => []
  | m :: rest =>
      let '(killed, m') := Meteoroid.update frames speed m in
      if killed then update_meteoroids frames speed rest
      else m' :: update_meteoroids frames speed rest
  end.

End Sprite.

(** ** class Player (lines 535-587) *)

Module Player.

(** [rect] of a fresh player; the ship image is scaled to 118 x 75. *)
Definition init : Rect.t := Rect.mk 100 (windowheight / 2) 118 75.

(** [update]: the exhaust counters [move] and [stand]. *)
Definition update (left right : bool) (move stand : Z) : Z * Z :=
  let move1 := if 4 <=? move + 1 then 0 else move in
  let stand1 := if 4 <=? stand + 1 then 0 else stand in
  if left || right then (move1 + 1, stand1) else (move1, stand1 + 1).

Definition shoot (self : Rect.t) : Bullet.t :=
  Bullet.init (Rect.x self) (Rect.y self).

End Player.

(** ** Game.play (lines 743-892) *)

(** The variables of [play] together with the globals it writes. *)
Record Game : Type := mkGame {
  score : Z;
  move : Z;
  stand : Z;
  left : bool;
  right : bool;
  up : bool;
  down : bool;
  meteoroid_speed : Q;
  meteoroid_timer : Z;
  previous_time : Z;
  player : Rect.t;
  bullet_group : list Bullet.t;
  meteoroid_group : list Meteoroid.t;
  meteoroid_group_exploded : list Meteoroid.t;
  next_ident : nat
}.

(** What one frame reads from outside: the event queue, the keyboard and
    the clock. A spawn event carries the height [random.uniform] draws for
    it, as the integer the new [Rect] keeps. *)
Inductive Event : Type :=
| METEOROID_TIMER (y : Z)
| DIFFICULTY_INCREASE
| QUIT
| OTHER.

Record Input : Type := mkInput {
  events : list Event;
  K_a : bool;
  K_d : bool;
  K_w : bool;
  K_s : bool;
  K_SPACE : bool;
  K_ESCAPE : bool;
  get_ticks : Z
}.

(** How a frame ends: the loop goes on, [menu.gameover(score)] takes over
    (it never returns), or [sys.exit()] ends the process. *)
Inductive Outcome : Type :=
| Running (g : Game)
| GameOver (final_score : Z)
| Exit.

Definition player_speed : Z := 3.

Definition set_score (g : Game) (v : Z) : Game :=
  mkGame v (move g) (stand g) (left g) (right g) (up g) (down g)
    (meteoroid_speed g) (meteoroid_timer g) (previous_time g) (player g)
    (bullet_group g) (meteoroid_group g) (meteoroid_group_exploded g) (next_ident g).

Definition set_counters (g : Game) (mv st : Z) : Game :=
  mkGame (score g) mv st (left g) (right g) (up g) (down g)
    (meteoroid_speed g) (meteoroid_timer g) (previous_time g) (player g)
    (bullet_group g) (meteoroid_group g) (meteoroid_group_exploded g) (next_ident g).

Definition set_flags (g : Game) (l r u d : bool) : Game :=
  mkGame (score g) (move g) (stand g) l r u d
    (meteoroid_speed g) (meteoroid_timer g) (previous_time g) (player g)
    (bullet_group g) (meteoroid_group g) (meteoroid_group_exploded g) (next_ident g).

Definition set_difficulty (g : Game) (speed : Q) (timer : Z) : Game :=
  mkGame (score g) (move g) (stand g) (left g) (right g) (up g) (down g)
    speed timer (previous_time g) (player g)
    (bullet_group g) (meteoroid_group g) (meteoroid_group_exploded g) (next_ident g).

Definition set_previous_time (g : Game) (v : Z) : Game :=
  mkGame (score g) (move g) (stand g) (left g) (right g) (up g) (down g)
    (meteoroid_speed g) (meteoroid_timer g) v (player g)
    (bullet_group g) (meteoroid_group g) (meteoroid_group_exploded g) (next_ident g).

Definition set_player (g : Game) (p : Rect.t) : Game :=
  mkGame (score g) (move g) (stand g) (left g) (right g) (up g) (down g)
    (meteoroid_speed g) (meteoroid_timer g) (previous_time g) p
    (bullet_group g) (meteoroid_group g) (meteoroid_group_exploded g) (next_ident g).

Definition set_bullets (g : Game) (bs : list Bullet.t) : Game :=
  mkGame (score g) (move g) (stand g) (left g) (right g) (up g) (down g)
    (meteoroid_speed g) (meteoroid_timer g) (previous_time g) (player g)
    bs (meteoroid_group g) (meteoroid_group_exploded g) (next_ident g).

Definition set_meteoroids (g : Game) (alive exploded : list Meteoroid.t) : Game :=
  mkGame (score g) (move g) (stand g) (left g) (right g) (up g) (down g)
    (meteoroid_speed g) (meteoroid_timer g) (previous_time g) (player g)
    (bullet_group g) alive exploded (next_ident g).

Definition set_next_ident (g : Game) (n : nat) : Game :=
  mkGame (score g) (move g) (stand g) (left g) (right g) (up g) (down g)
    (meteoroid_speed g) (meteoroid_timer g) (previous_time g) (player g)
    (bullet_group g) (meteoroid_group g) (meteoroid_group_exploded g) n.

(** Lines 770-786: the state [play] starts from; [t0] is the clock value
    read for [previous_time]. *)
Definition initial (t0 : Z) : Game :=
  mkGame 0 0 0 false false false false (inject_Z 4) 1500 t0 Player.init [] [] [] 0.

(** Lines 797-802. *)
Definition begin_frame (g : Game) : Game :=
  set_score (set_flags g false false false false) (score g + 1).

(** Lines 805-806: [meteoroid_group.add(Meteoroid.spawn())]. *)
Definition spawn (g : Game) (y : Z) : Game :=
  set_next_ident
    (set_meteoroids g
       (Sprite.add (Meteoroid.init (next_ident g) y) (meteoroid_group g))
       (meteoroid_group_exploded g))
    (S (next_ident g)).

(** Lines 808-812. *)
Definition difficulty_increase (g : Game) : Game :=
  set_difficulty g
    (meteoroid_speed g + (1 # 4))%Q
    (if 200 <? meteoroid_timer g then meteoroid_timer g - 100 else meteoroid_timer g).

(** Lines 804-818: the event loop; [None] is [sys.exit()]. *)
Definition handle_event (g : Game) (e : Event) : option Game :=
  match e with
  | METEOROID_TIMER y => Some (spawn g y)
  | DIFFICULTY_INCREASE => Some (difficulty_increase g)
  | QUIT => None
  | OTHER => Some g
  end.

Fixpoint handle_events (g : Game) (es : list Event) : option Game :=
  match es with
  | [] => Some g
  | e :: rest =>
      match handle_event g e with
      | Some g1 => handle_events g1 rest
      | None => None
      end
  end.

(** Lines 822-856: the four direction keys, each an [if] of its own. *)
Definition press_a (g : Game) : Game :=
  let g1 := set_flags g true false false false in
  if 0 <=? Rect.x (player g1)
  then set_player g1 (Rect.set_x (player g1) (Rect.x (player g1) - player_speed))
  else g1.

Definition press_d (g : Game) : Game :=
  let g1 := set_flags g false true false false in
  if Rect.x (player g1) <=? windowwidth - 50
  then set_player g1 (Rect.set_x (player g1) (Rect.x (player g1) + player_speed))
  else g1.

Definition press_w (g : Game) : Game :=
  let g1 := set_flags g false false true false in
  if 0 <=? Rect.y (player g1)
  then set_player g1 (Rect.set_y (player g1) (Rect.y (player g1) - player_speed))
  else g1.

Definition press_s (g : Game) : Game :=
  let g1 := set_flags g false false false true in
  if Rect.y (player g1) <=? windowheight - 50
  then set_player g1 (Rect.set_y (player g1) (Rect.y (player g1) + player_speed))
  else g1.

Definition handle_keys (g : Game) (i : Input) : Game :=
  let g1 := if K_a i then press_a g else g in
  let g2 := if K_d i then press_d g1 else g1 in
  let g3 := if K_w i then press_w g2 else g2 in
  if K_s i then press_s g3 else g3.

(** Lines 858-863. *)
Definition handle_space (g : Game) (i : Input) : Game :=
  if K_SPACE i then
    let current_time := get_ticks i in
    if 500 <? current_time - previous_time g
    then set_bullets (set_previous_time g current_time)
           (bullet_group g ++ [Player.shoot (player g)])
    else g
  else g.

(** Line 870. *)
Definition update_player (g : Game) : Game :=
  let '(mv, st) := Player.update (left g) (right g) (move g) (stand g) in
  set_counters g mv st.

(** Lines 804-863: everything a frame does before it looks at ESCAPE. *)
Definition frame_inputs (g : Game) (i : Input) : option Game :=
  match handle_events (begin_frame g) (events i) with
  | Some g1 => Some (handle_space (handle_keys g1 i) i)
  | None => None
  end.

(** Lines 879-883: one round of [for sprite in hit]. *)
Definition explode (g : Game) (sprite : Meteoroid.t) : Game :=
  let sprite1 := Meteoroid.set_state sprite (Meteoroid.state sprite + 1) in
  set_score
    (set_meteoroids g
       (Sprite.remove sprite1 (meteoroid_group g))
       (Sprite.add sprite1 (meteoroid_group_exploded g)))
    (score g + 100).

(** Line 878: the dictionary [hit] and the bullets that are left. *)
Definition hit_of (g : Game) : list (Meteoroid.t * list Bullet.t) * list Bullet.t :=
  Sprite.groupcollide Meteoroid.rect Bullet.rect (meteoroid_group g) (bullet_group g).

(** Lines 878-883. *)
Definition resolve_hits (g : Game) : Game :=
  let '(hit, bullets) := hit_of g in
  fold_left explode (map fst hit) (set_bullets g bullets).

(** Lines 885-886. *)
Definition prune (g : Game) : Game :=
  let bullets := snd (Sprite.spritecollide Bullet.rect window_right (bullet_group g)) in
  let alive := snd (Sprite.spritecollide Meteoroid.rect window_left (meteoroid_group g)) in
  set_bullets (set_meteoroids g alive (meteoroid_group_exploded g)) bullets.

Section Play.

(** [len(game.image_meteoroid)]: the number of meteoroid images, of which
    the first shows the meteoroid and the rest its explosion. *)
Variable frames : Z.

(** Lines 888-890. *)
Definition advance (g : Game) : Game :=
  set_bullets
    (set_meteoroids g
       (Sprite.update_meteoroids frames (meteoroid_speed g) (meteoroid_group g))
       (Sprite.update_meteoroids frames (meteoroid_speed g) (meteoroid_group_exploded g)))
    (map (Bullet.update 5) (bullet_group g)).

(** Lines 878-890: what is left of a frame once the player survived. *)
Definition frame_world (g : Game) : Game :=
  advance (prune (resolve_hits g)).

(** Line 872: the meteoroids the player touches are killed. *)
Definition player_collision (g : Game) : list Meteoroid.t * Game :=
  let '(gameover, alive) :=
    Sprite.spritecollide Meteoroid.rect (player g) (meteoroid_group g) in
  (gameover, set_meteoroids g alive (meteoroid_group_exploded g)).

(** The state in which the collisions of a frame are resolved; [g2] is
    the state the inputs of the frame left. *)
Definition before_collisions (g2 : Game) : Game :=
  snd (player_collision (update_player g2)).

(** One turn of [while True] (lines 795-892). *)
Definition play_frame (g : Game) (i : Input) : Outcome :=
  match frame_inputs g i with
  | None => Exit
  | Some g1 =>
      if K_ESCAPE i then GameOver (score g1)
      else
        let '(gameover, g2) := player_collision (update_player g1) in
        match gameover with
        | _ :: _ => GameOver (score g2)
        | [] => Running (frame_world g2)
        end
  end.

(** The loop over the frames' inputs. *)
Fixpoint run (g : Game) (inputs : list Input) : Outcome :=
  match inputs with
  | [] => Running g
  | i :: rest =>
      match play_frame g i with
      | Running g1 => run g1 rest
      | o => o
      end
  end.

Definition play (t0 : Z) (inputs : list Input) : Outcome :=
  run (initial t0) inputs.

End Play.

(** ** Vocabulary of the statements *)

(** The escalation events of a queue, and of all the frames of a run. *)
Definition is_fire (e : Event) : bool :=
  match e with DIFFICULTY_INCREASE => true | _ => false end.

Definition fires (es : list Event) : nat := length (filter is_fire es).

Fixpoint total_fires (inputs : list Input) : nat :=
  match inputs with
  | [] => 0%nat
  | i :: rest => (fires (events i) + total_fires rest)%nat
  end.

(** The meteoroids destroyed by bullets in the frame that starts in [g]
    and reads [i]: the keys of [hit]. *)
Definition destroyed (g : Game) (i : Input) : list Meteoroid.t :=
  match frame_inputs g i with
  | Some g2 => map fst (fst (hit_of (before_collisions g2)))
  | None => []
  end.

(** The identities of the members of a group. *)
Definition idents (group : list Meteoroid.t) : list nat :=
  map Meteoroid.ident group.

(** A frame that brings [n] escalation events and no key. *)
Definition escalation (n : nat) : Input :=
  mkInput (repeat DIFFICULTY_INCREASE n) false false false false false false 0.

(** The state of a run after one, and after three, escalation events. *)
Definition after_one_escalation : Game :=
  mkGame 1 0 1 false false false false (inject_Z 4 + (1 # 4))%Q 1400 0
    Player.init [] [] [] 0.

Definition after_three_escalations : Game :=
  mkGame 2 0 2 false false false false
    (inject_Z 4 + (1 # 4) + (1 # 4) + (1 # 4))%Q 1200 0 Player.init [] [] [] 0.

(** A meteoroid and a bullet whose rectangles overlap, as line 878 tests
    them. *)
Definition overlaps (m : Meteoroid.t) (b : Bullet.t) : bool :=
  Rect.colliderect (Meteoroid.rect m) (Bullet.rect b).

(** A bullet that none of the meteoroids of [group] overlaps. *)
Definition untouched (group : list Meteoroid.t) (b : Bullet.t) : bool :=
  forallb (fun m => negb (overlaps m b)) group.

(** A bullet of [bullets] that gets as far as [m] at line 878: it overlaps
    [m] and none of [before], the meteoroids that come before [m] in the
    group. *)
Definition reaches (before : list Meteoroid.t) (bullets : list Bullet.t)
    (m : Meteoroid.t) (b : Bullet.t) : Prop :=
  In b bullets /\ overlaps m b = true /\ untouched before b = true.

(** A meteoroid with the identity of one of [ks]. *)
Definition among (ks : list Meteoroid.t) (m : Meteoroid.t) : bool :=
  existsb (fun k => Nat.eqb (Meteoroid.ident m) (Meteoroid.ident k)) ks.

(** Line 880: the hit meteoroid with its first explosion frame. *)
Definition bump (m : Meteoroid.t) : Meteoroid.t :=
  Meteoroid.set_state m (Meteoroid.state m + 1).

(** The two meteoroid groups as the run keeps them: no object is twice
    in a group or in both, identities come from the allocation counter,
    alive meteoroids are in state 0 and exploding ones past it. *)
Record well_formed (g : Game) : Prop := mk_well_formed {
  wf_alive : NoDup (idents (meteoroid_group g));
  wf_exploded : NoDup (idents (meteoroid_group_exploded g));
  wf_disjoint : forall n,
      In n (idents (meteoroid_group g)) ->
      ~ In n (idents (meteoroid_group_exploded g));
  wf_fresh : forall n,
      In n (idents (meteoroid_group g)) \/ In n (idents (meteoroid_group_exploded g)) ->
      (n < next_ident g)%nat;
  wf_alive_state : forall m,
      In m (meteoroid_group g) -> Meteoroid.state m = 0;
  wf_exploded_state : forall m,
      In m (meteoroid_group_exploded g) -> 1 <= Meteoroid.state m
}.

(** What the specification says of the two groups: alive meteoroids are in state
    0, exploding ones in a state of at least 1, and no meteoroid, and no
    identity, is in both. *)
Definition groups_apart (g : Game) : Prop :=
  (forall m, In m (meteoroid_group g) -> Meteoroid.state m = 0) /\
  (forall m, In m (meteoroid_group_exploded g) -> 1 <= Meteoroid.state m) /\
  (forall m, In m (meteoroid_group g) -> ~ In m (meteoroid_group_exploded g)) /\
  (forall n, In n (idents (meteoroid_group g)) ->
             ~ In n (idents (meteoroid_group_exploded g))).

(** The state in which line 888 starts to update the groups. *)
Definition before_advance (g2 : Game) : Game :=
  prune (resolve_hits (before_collisions g2)).

(** Exploding meteoroids show a frame that exists: [frames - 1] is the
    index of the last image. *)
Definition frames_bounded (frames : Z) (g : Game) : Prop :=
  forall m, In m (meteoroid_group_exploded g) -> Meteoroid.state m <= frames - 1.

(** An identity that was handed out and is not alive (any more). *)
Definition retired (n : nat) (g : Game) : Prop :=
  (n < next_ident g)%nat /\ ~ In n (idents (meteoroid_group g)).

(** The player within one step of the window bounds. *)
Definition near_window (p : Rect.t) : Prop :=
  - player_speed <= Rect.x p <= windowwidth - 50 + player_speed /\
  - player_speed <= Rect.y p <= windowheight - 50 + player_speed.

(** The spawn interval stays on the grid of hundreds, at or above 200. *)
Definition timer_ok (g : Game) : Prop :=
  200 <= meteoroid_timer g /\ exists k, meteoroid_timer g = 100 * k.

(** Frames in which nothing arrives but the keys that are held. *)
Definition keys_only (a d w s space : bool) (now : Z) : Input :=
  mkInput [] a d w s space false now.

(** ** Concrete runs *)

Definition idle : Input := keys_only false false false false false 0.

Definition spawn_at (y : Z) : Input :=
  mkInput [METEOROID_TIMER y] false false false false false false 0.

(** A shot in the first frame, 202 quiet frames, then a meteoroid spawned
    in each of two frames at the same height. *)
Definition shot_then_two_spawns : list Input :=
  keys_only false false false false true 501
    :: repeat idle 202 ++ [spawn_at 385; spawn_at 385].

Definition meteoroid_A : Meteoroid.t := Meteoroid.mk 0 (Rect.mk 1272 385 38 33) 0.
Definition meteoroid_B : Meteoroid.t := Meteoroid.mk 1 (Rect.mk 1276 385 38 33) 0.
Definition the_bullet : Bullet.t := Bullet.mk (Rect.mk 1265 390 15 12).

(** Where that run stands: the bullet has reached both meteoroids. *)
Definition two_meteoroids_one_bullet : Game :=
  mkGame 205 0 1 false false false false (inject_Z 4) 1500 501 Player.init
    [the_bullet] [meteoroid_A; meteoroid_B] [] 2.

(** One quiet frame later, and two. *)
Definition after_the_hit : Game :=
  mkGame 306 0 2 false false false false (inject_Z 4) 1500 501 Player.init
    [] [Meteoroid.mk 1 (Rect.mk 1272 385 38 33) 0]
    [Meteoroid.mk 0 (Rect.mk 1268 385 38 33) 2] 2.

Definition after_the_hit_next : Game :=
  mkGame 307 0 3 false false false false (inject_Z 4) 1500 501 Player.init
    [] [Meteoroid.mk 1 (Rect.mk 1268 385 38 33) 0]
    [Meteoroid.mk 0 (Rect.mk 1264 385 38 33) 3] 2.

(** ** Statements of the specification, as they are worded *)

(** "A meteoroid that a bullet overlaps goes from the alive to the
    exploding group": read at line 878, in state [g]. *)
Definition every_overlapped_meteoroid_explodes (g : Game) : Prop :=
  forall m, In m (meteoroid_group g) ->
    (exists b, In b (bullet_group g) /\ overlaps m b = true) ->
    ~ In (Meteoroid.ident m) (idents (meteoroid_group (resolve_hits g))) /\
    In (Meteoroid.ident m) (idents (meteoroid_group_exploded (resolve_hits g))).

(** "The player's position stays in the window bounds." *)
Definition in_window (p : Rect.t) : Prop :=
  0 <= Rect.x p <= windowwidth - 50 /\ 0 <= Rect.y p <= windowheight - 50.

(** "Holding two keys never moves the player diagonally in a frame." *)
Definition no_diagonal_move (g : Game) (i : Input) : Prop :=
  Rect.x (player (handle_keys g i)) = Rect.x (player g) \/
  Rect.y (player (handle_keys g i)) = Rect.y (player g).



(** Where the keys A and D, and W and S, take a coordinate. *)
Definition move_x (a d : bool) (x : Z) : Z :=
  let x1 := if a && (0 <=? x) then x - player_speed else x in
  if d && (x1 <=? windowwidth - 50) then x1 + player_speed else x1.

Definition move_y (w s : bool) (y : Z) : Z :=
  let y1 := if w && (0 <=? y) then y - player_speed else y in
  if s && (y1 <=? windowheight - 50) then y1 + player_speed else y1.

(** The direction flags a frame ends with: the last held key in the order
    A, D, W, S. *)
Definition last_key_flags (i : Input) : bool * bool * bool * bool :=
  if K_s i then (false, false, false, true)
  else if K_w i then (false, false, true, false)
  else if K_d i then (false, true, false, false)
  else if K_a i then (true, false, false, false)
  else (false, false, false, false).

(** ** Further vocabulary: what the frames draw and count *)

(** Line 673: the index of the image [Meteoroid.update] draws, the state
    it leaves. *)
Definition drawn_image (frames : Z) (speed : Q) (m : Meteoroid.t) : Z :=
  Meteoroid.state (snd (Meteoroid.update frames speed m)).

(** Lines 560-572: the index of the exhaust image [Player.update] draws,
    [move] or [stand] after the wrap and before the increment. *)
Definition exhaust_image (left right : bool) (move stand : Z) : Z :=
  let move1 := if 4 <=? move + 1 then 0 else move in
  let stand1 := if 4 <=? stand + 1 then 0 else stand in
  if left || right then move1 else stand1.

(** The spawn events of a queue, and of all the frames of a run. *)
Definition is_spawn (e : Event) : bool :=
  match e with METEOROID_TIMER _ => true | _ => false end.

Definition spawns (es : list Event) : nat := length (filter is_spawn es).

Fixpoint total_spawns (inputs : list Input) : nat :=
  match inputs with
  | [] => 0%nat
  | i :: rest => (spawns (events i) + total_spawns rest)%nat
  end.

(** The meteoroids destroyed by bullets in all the frames of the run that
    starts in [g] and reads [inputs]: the keys of [hit], frame by frame. *)
Fixpoint total_destroyed (frames : Z) (g : Game) (inputs : list Input) : nat :=
  match inputs with
  | [] => 0%nat
  | i :: rest =>
      match play_frame frames g i with
      | Running g1 => (length (destroyed g i) + total_destroyed frames g1 rest)%nat
      | _ => 0%nat
      end
  end.

(** Line 652: the heights [random.uniform(33, windowheight - 33)] can give
    a spawned meteoroid. *)
Definition heights_in_range (i : Input) : Prop :=
  forall y, In (METEOROID_TIMER y) (events i) -> 33 <= y <= windowheight - 33.

(** A bullet between the player's front and the right border, with the
    size [Bullet.__init__] gives it. *)
Definition bullet_in_flight (b : Bullet.t) : Prop :=
  142 <= Rect.x (Bullet.rect b) <= 1366 /\
  27 <= Rect.y (Bullet.rect b) <= 703 /\
  Rect.w (Bullet.rect b) = 15 /\ Rect.h (Bullet.rect b) = 12.

(** An alive meteoroid between the left border and its spawn place, with
    the size [Meteoroid.__init__] gives it. *)
Definition meteoroid_on_track (m : Meteoroid.t) : Prop :=
  -133 <= Rect.x (Meteoroid.rect m) <= windowwidth - 4 /\
  33 <= Rect.y (Meteoroid.rect m) <= windowheight - 33 /\
  Rect.w (Meteoroid.rect m) = 38 /\ Rect.h (Meteoroid.rect m) = 33.

(** The bullets a frame keeps: the ones no alive meteoroid and not the
    right border overlaps (lines 878 and 885). *)
Definition bullet_survives (alive : list Meteoroid.t) (b : Bullet.t) : bool :=
  untouched alive b && negb (Rect.colliderect window_right (Bullet.rect b)).

(** An identity that was handed out and is in neither group (any more). *)
Definition gone (n : nat) (g : Game) : Prop :=
  (n < next_ident g)%nat /\
  ~ In n (idents (meteoroid_group g)) /\
  ~ In n (idents (meteoroid_group_exploded g)).

(** ** Game.__init__ and Game.animateBackground (lines 698-724) *)

Module Background.

(** Line 702: the background layers are scaled to the window (line 698),
    so the width of the first one is the window's. *)
Definition bg_width : Z := windowwidth.

(** Line 703: [math.ceil(windowwidth / self.bg_width) + 1]. *)
Definition tiles : Z := Qceiling (inject_Z windowwidth / inject_Z bg_width) + 1.

(** Line 704: one scroll offset for each layer. *)
Definition init (layers : nat) : list Q := repeat 0%Q layers.

(** Line 719: where the tile number [x] of a layer is drawn; the float is
    cut to an integer pixel. *)
Definition tile_x (x : Z) (s : Q) : Z :=
  int_of_float (inject_Z (x * bg_width) + s).

(** Lines 721-724 for layer [i]: half a pixel more for each layer, and back
    to 0 once the offset is past the width. *)
Definition scroll_layer (i : nat) (s : Q) : Q :=
  let s1 := (s - inject_Z (Z.of_nat i + 1) * (1 # 2))%Q in
  if Qle_bool (Qabs s1) (inject_Z bg_width) then s1 else 0%Q.

Fixpoint scroll_from (i : nat) (scroll : list Q) : list Q :=
  match scroll with
  | [] => []
  | s :: rest => scroll_layer i s :: scroll_from (S i) rest
  end.

(** Lines 717-724: what one call does to [self.scroll]. *)
Definition animateBackground (scroll : list Q) : list Q := scroll_from 0 scroll.

End Background.

(** ** pygame.Rect.collidepoint *)

(** A point is inside a rectangle when it is on it, the right and the
    bottom edge left out. *)
Definition collidepoint (r : Rect.t) (p : Z * Z) : bool :=
  (Rect.x r <=? fst p) && (fst p <? Rect.x r + Rect.w r) &&
  (Rect.y r <=? snd p) && (snd p <? Rect.y r + Rect.h r).

(** ** class Text (lines 102-134) *)

Module Text.

(** [rect] is the rectangle of the rendered surface: its size is the size
    of the surface. *)
Record t : Type := mk { rect : Rect.t }.

(** [w] and [h] are the size the font gives the text. *)
Definition init (w h : Z) : t := mk (Rect.mk 0 0 w h).

(** Line 133: [self.rect.topleft = (x, y)], with the floats a button
    computes. *)
Definition draw (x y : Q) (self : t) : t :=
  mk (Rect.mk (rect_int_of_float x) (rect_int_of_float y)
        (Rect.w (rect self)) (Rect.h (rect self))).

End Text.

(** ** class Button (lines 138-191) *)

Module Button.

Record t : Type := mk {
  width : Z;
  height : Z;
  hover : bool;
  rect : Rect.t;
  button_text : Text.t
}.

(** Lines 156-166; [text_w] and [text_h] are the size of the rendered
    label. *)
Definition init (width height text_w text_h : Z) : t :=
  mk width height false (Rect.mk 0 0 width height) (Text.init text_w text_h).

(** Lines 184-191. *)
Definition draw (x y : Z) (self : t) : t :=
  mk (width self) (height self) (hover self)
    (Rect.mk x y (Rect.w (rect self)) (Rect.h (rect self)))
    (Text.draw
       (inject_Z x
        + inject_Z (width self - Rect.w (Text.rect (button_text self))) / 2)%Q
       (inject_Z y
        + inject_Z (height self - Rect.h (Text.rect (button_text self))) / 2)%Q
       (button_text self)).


End Button.

(** ** class Menu (lines 195-480) *)

Module Menu.

Record t : Type := mk {
  volume : Z;
  bg_state : Z;
  play_button : Button.t;
  scoreboard_button : Button.t;
  tutorial_button : Button.t;
  options_button : Button.t;
  quit_button : Button.t;
  back_button : Button.t;
  mute_button : Button.t;
  unmute_button : Button.t
}.

(** Lines 209-245; [label n] is the size of the rendered label of the
    button created as the [n]-th. *)
Definition init (label : nat -> Z * Z) : t :=
  mk 1 0
    (Button.init 175 55 (fst (label 0%nat)) (snd (label 0%nat)))
    (Button.init 175 55 (fst (label 1%nat)) (snd (label 1%nat)))
    (Button.init 175 55 (fst (label 2%nat)) (snd (label 2%nat)))
    (Button.init 175 55 (fst (label 3%nat)) (snd (label 3%nat)))
    (Button.init 175 55 (fst (label 4%nat)) (snd (label 4%nat)))
    (Button.init 175 55 (fst (label 5%nat)) (snd (label 5%nat)))
    (Button.init 50 50 (fst (label 6%nat)) (snd (label 6%nat)))
    (Button.init 50 50 (fst (label 7%nat)) (snd (label 7%nat))).

(** Lines 260-264: [animateBackground(True)]; [images] is
    [len(self.bg_menu)]. The call with [False] only draws. *)
Definition next_background (images : Z) (state : Z) : Z :=
  if images - 1 <=? state then 0 else state + 1.

Definition animateBackground (images : Z) (flag : bool) (m : t) : t :=
  if flag then
    mk (volume m) (next_background images (bg_state m))
      (play_button m) (scoreboard_button m) (tutorial_button m)
      (options_button m) (quit_button m) (back_button m)
      (mute_button m) (unmute_button m)
  else m.











End Menu.

(** ** The highscore table (lines 26-45, 336-341 and 505-506) *)

Module Highscore.

(** The table [highscore], as the scores of its rows in the order they
    were inserted. *)

(** Lines 41-43: three rows with score 0. *)
Definition create_database (rows : list Z) : list Z := rows ++ [0; 0; 0].

(** Lines 505-506: the row [menu.gameover] inserts. *)
Definition record (score : Z) (rows : list Z) : list Z := rows ++ [score].

(** Line 336: [ORDER BY score DESC]. *)
Fixpoint insert_desc (x : Z) (l : list Z) : list Z :=
  match l with
  | [] => [x]
  | y :: rest => if y <? x then x :: l else y :: insert_desc x rest
  end.

Definition order_by_score_desc (rows : list Z) : list Z :=
  fold_right insert_desc [] rows.

(** Lines 336-341: the three places [menu.scoreboard] shows; [None] is the
    [IndexError] of a table with fewer than three rows. *)
Definition scoreboard (rows : list Z) : option (Z * Z * Z) :=
  match order_by_score_desc rows with
  | first :: second :: third :: _ => Some (first, second, third)
  | _ => None
  end.

End Highscore.

(** The flags of the calls of [Menu.animateBackground] that switch the
    image. *)
Definition switches (flags : list bool) : nat := length (filter (fun b => b) flags).





(** The rows of a highscore table that holds at least the three rows of
    [create_database]: some recorded scores around them. *)
Definition after_creation (rows : list Z) : Prop :=
  exists older newer, rows = older ++ [0; 0; 0] ++ newer.

(** * Properties *)

(** ** What each part of a frame leaves alone *)

Ltac game_fields :=
  intros;
  repeat match goal with
         | g : Game |- _ => destruct g
         | i : Input |- _ => destruct i
         end;
  cbn in *.

Lemma partition_filter {S : Type} (p : S -> bool) (l : list S) :
  partition p l = (filter p l, filter (fun s => negb (p s)) l).
Proof.
  induction l as [|a l IH]; cbn; [reflexivity|].
  rewrite IH. destruct (p a); reflexivity.
Qed.

Lemma spritecollide_filter {S : Type} (rect_of : S -> Rect.t) (r : Rect.t) (group : list S) :
  Sprite.spritecollide rect_of r group =
  (filter (fun s => Rect.colliderect r (rect_of s)) group,
   filter (fun s => negb (Rect.colliderect r (rect_of s))) group).
Proof. apply partition_filter. Qed.

(** The score after the hit loop: one bonus for each key of [hit]. *)
Lemma fold_explode_score (ks : list Meteoroid.t) (g : Game) :
  score (fold_left explode ks g) = score g + 100 * Z.of_nat (length ks).
Proof.
  revert g. induction ks as [|k ks IH]; intro g.
  - cbn. lia.
  - cbn [fold_left length]. rewrite IH, Nat2Z.inj_succ.
    unfold explode. cbn [score set_score]. lia.
Qed.

Lemma fold_explode_static (ks : list Meteoroid.t) (g : Game) :
  player (fold_left explode ks g) = player g /\
  bullet_group (fold_left explode ks g) = bullet_group g /\
  meteoroid_speed (fold_left explode ks g) = meteoroid_speed g /\
  meteoroid_timer (fold_left explode ks g) = meteoroid_timer g /\
  previous_time (fold_left explode ks g) = previous_time g /\
  next_ident (fold_left explode ks g) = next_ident g.
Proof.
  revert g. induction ks as [|k ks IH]; intro g; [cbn; tauto|].
  cbn [fold_left]. destruct (IH (explode g k)) as (H1 & H2 & H3 & H4 & H5 & H6).
  rewrite H1, H2, H3, H4, H5, H6. cbn. tauto.
Qed.

Lemma resolve_hits_score (g : Game) :
  score (resolve_hits g) = score g + 100 * Z.of_nat (length (fst (hit_of g))).
Proof.
  unfold resolve_hits. destruct (hit_of g) as [hit bullets]. cbn [fst].
  rewrite fold_explode_score, length_map. reflexivity.
Qed.

Lemma resolve_hits_static (g : Game) :
  player (resolve_hits g) = player g /\
  meteoroid_speed (resolve_hits g) = meteoroid_speed g /\
  meteoroid_timer (resolve_hits g) = meteoroid_timer g /\
  previous_time (resolve_hits g) = previous_time g /\
  next_ident (resolve_hits g) = next_ident g.
Proof.
  unfold resolve_hits. destruct (hit_of g) as [hit bullets].
  destruct (fold_explode_static (map fst hit) (set_bullets g bullets))
    as (H1 & _ & H3 & H4 & H5 & H6).
  rewrite H1, H3, H4, H5, H6. cbn. tauto.
Qed.

Section PlayFacts.

Variable frames : Z.

Lemma frame_world_static (g : Game) :
  player (frame_world frames g) = player g /\
  meteoroid_speed (frame_world frames g) = meteoroid_speed g /\
  meteoroid_timer (frame_world frames g) = meteoroid_timer g /\
  previous_time (frame_world frames g) = previous_time g /\
  next_ident (frame_world frames g) = next_ident g /\
  score (frame_world frames g) = score (resolve_hits g).
Proof.
  destruct (resolve_hits_static g) as (H1 & H3 & H4 & H5 & H6).
  unfold frame_world, advance, prune. cbn. tauto.
Qed.

Lemma player_collision_eq (g : Game) :
  player_collision g =
  (filter (fun m => Rect.colliderect (player g) (Meteoroid.rect m)) (meteoroid_group g),
   set_meteoroids g
     (filter (fun m => negb (Rect.colliderect (player g) (Meteoroid.rect m)))
        (meteoroid_group g))
     (meteoroid_group_exploded g)).
Proof.
  unfold player_collision. rewrite spritecollide_filter. reflexivity.
Qed.

(** A frame after which the loop goes on, taken apart. *)
Lemma play_frame_running (g : Game) (i : Input) (g' : Game) :
  play_frame frames g i = Running g' ->
  exists g2,
    frame_inputs g i = Some g2 /\
    K_ESCAPE i = false /\
    g' = frame_world frames (before_collisions g2).
Proof.
  unfold play_frame, before_collisions.
  destruct (frame_inputs g i) as [g2|]; [|discriminate].
  intro H. exists g2.
  destruct (K_ESCAPE i); [discriminate|].
  destruct (player_collision _) as [gameover g3]. cbn [snd].
  destruct gameover; [|discriminate].
  injection H as <-. repeat split.
Qed.

(** An invariant of the frames is an invariant of the run. *)
Lemma run_invariant (P : Game -> Prop) :
  (forall g i g', P g -> play_frame frames g i = Running g' -> P g') ->
  forall inputs g g', P g -> run frames g inputs = Running g' -> P g'.
Proof.
  intros step inputs. induction inputs as [|i rest IH]; intros g g' Hg Hrun.
  - cbn in Hrun. injection Hrun as <-. exact Hg.
  - cbn in Hrun. destruct (play_frame frames g i) as [g1| |] eqn:E; try discriminate.
    eapply IH; [|exact Hrun]. eapply step; eassumption.
Qed.

Lemma run_app (g : Game) (l1 l2 : list Input) (g1 : Game) :
  run frames g l1 = Running g1 -> run frames g (l1 ++ l2) = run frames g1 l2.
Proof.
  revert g. induction l1 as [|i l1 IH]; intros g H; cbn in *.
  - injection H as <-. reflexivity.
  - destruct (play_frame frames g i); try discriminate. auto.
Qed.

End PlayFacts.

(** ** The event loop *)

Lemma handle_events_static (es : list Event) (g g1 : Game) :
  handle_events g es = Some g1 ->
  score g1 = score g /\ player g1 = player g /\
  bullet_group g1 = bullet_group g /\
  meteoroid_group_exploded g1 = meteoroid_group_exploded g /\
  previous_time g1 = previous_time g /\
  (left g1, right g1, up g1, down g1) = (left g, right g, up g, down g).
Proof.
  revert g. induction es as [|e es IH]; intros g H; cbn in H.
  - injection H as <-. tauto.
  - destruct e; cbn in H; try discriminate;
      apply IH in H; cbn in H; exact H.
Qed.

Lemma handle_keys_static (g : Game) (i : Input) :
  score (handle_keys g i) = score g /\
  bullet_group (handle_keys g i) = bullet_group g /\
  meteoroid_group (handle_keys g i) = meteoroid_group g /\
  meteoroid_group_exploded (handle_keys g i) = meteoroid_group_exploded g /\
  meteoroid_speed (handle_keys g i) = meteoroid_speed g /\
  meteoroid_timer (handle_keys g i) = meteoroid_timer g /\
  previous_time (handle_keys g i) = previous_time g /\
  next_ident (handle_keys g i) = next_ident g.
Proof.
  unfold handle_keys, press_a, press_d, press_w, press_s.
  repeat match goal with
         | |- context [if ?b then _ else _] => destruct b
         end; cbn; tauto.
Qed.

Lemma handle_space_static (g : Game) (i : Input) :
  score (handle_space g i) = score g /\
  player (handle_space g i) = player g /\
  meteoroid_group (handle_space g i) = meteoroid_group g /\
  meteoroid_group_exploded (handle_space g i) = meteoroid_group_exploded g /\
  meteoroid_speed (handle_space g i) = meteoroid_speed g /\
  meteoroid_timer (handle_space g i) = meteoroid_timer g /\
  next_ident (handle_space g i) = next_ident g.
Proof.
  unfold handle_space.
  repeat match goal with
         | |- context [if ?b then _ else _] => destruct b
         end; cbn; tauto.
Qed.

Lemma before_collisions_static (g : Game) :
  score (before_collisions g) = score g /\
  player (before_collisions g) = player g /\
  meteoroid_group_exploded (before_collisions g) = meteoroid_group_exploded g /\
  meteoroid_speed (before_collisions g) = meteoroid_speed g /\
  meteoroid_timer (before_collisions g) = meteoroid_timer g /\
  next_ident (before_collisions g) = next_ident g /\
  bullet_group (before_collisions g) = bullet_group g.
Proof.
  unfold before_collisions. rewrite player_collision_eq. cbn [snd].
  unfold update_player.
  destruct (Player.update _ _ _ _) as [mv st]. cbn. tauto.
Qed.

(** A frame that goes on, by its three parts: the events, the keys, the
    world. *)
Lemma play_frame_parts (frames : Z) (g : Game) (i : Input) (g' : Game) :
  play_frame frames g i = Running g' ->
  exists g1,
    handle_events (begin_frame g) (events i) = Some g1 /\
    g' = frame_world frames
           (before_collisions (handle_space (handle_keys g1 i) i)).
Proof.
  intro H. apply play_frame_running in H. destruct H as (g2 & H2 & _ & ->).
  unfold frame_inputs in H2.
  destruct (handle_events (begin_frame g) (events i)) as [g1|]; [|discriminate].
  injection H2 as <-. exists g1. split; reflexivity.
Qed.

(** ** The player stays near the window (lines 822-856) *)

Ltac press_near_window :=
  let H := fresh in
  intros [? ? ? ? ? ? ? ? ? ? [px py pw ph] ? ? ? ?]; unfold near_window;
  cbv [press_a press_d press_w press_s set_flags set_player player
       Rect.set_x Rect.set_y Rect.x Rect.y Rect.w Rect.h
       player_speed windowwidth windowheight];
  intro H;
  match goal with
  | |- context [if ?a <=? ?b then _ else _] => destruct (Z.leb_spec a b)
  end; cbv [player Rect.x Rect.y]; lia.

Lemma press_a_near_window (g : Game) :
  near_window (player g) -> near_window (player (press_a g)).
Proof. revert g. press_near_window. Qed.

Lemma press_d_near_window (g : Game) :
  near_window (player g) -> near_window (player (press_d g)).
Proof. revert g. press_near_window. Qed.

Lemma press_w_near_window (g : Game) :
  near_window (player g) -> near_window (player (press_w g)).
Proof. revert g. press_near_window. Qed.

Lemma press_s_near_window (g : Game) :
  near_window (player g) -> near_window (player (press_s g)).
Proof. revert g. press_near_window. Qed.

Lemma handle_keys_near_window (g : Game) (i : Input) :
  near_window (player g) -> near_window (player (handle_keys g i)).
Proof.
  intro H. unfold handle_keys.
  destruct (K_a i), (K_d i), (K_w i), (K_s i);
    auto using press_a_near_window, press_d_near_window,
      press_w_near_window, press_s_near_window.
Qed.

Lemma play_frame_near_window (frames : Z) (g : Game) (i : Input) (g' : Game) :
  near_window (player g) -> play_frame frames g i = Running g' ->
  near_window (player g').
Proof.
  intros Hg H. apply play_frame_parts in H. destruct H as (g1 & He & ->).
  destruct (frame_world_static frames
              (before_collisions (handle_space (handle_keys g1 i) i))) as (-> & _).
  destruct (before_collisions_static (handle_space (handle_keys g1 i) i)) as (_ & -> & _).
  destruct (handle_space_static (handle_keys g1 i) i) as (_ & -> & _).
  apply handle_keys_near_window.
  apply handle_events_static in He. destruct He as (_ & -> & _).
  exact Hg.
Qed.

(** C10. In every frame a run reaches, the player's position lies within
    one step of [player_speed] of the window bounds: x in [-3, 1233] and
    y in [-3, 673]. The bound is tested before the move, so the position
    overshoots it by at most one step. *)
Theorem player_overshoots_by_one_step (frames t0 : Z) (inputs : list Input) (g : Game) :
  play frames t0 inputs = Running g ->
  (- player_speed <= Rect.x (player g) <= windowwidth - 50 + player_speed /\
   - player_speed <= Rect.y (player g) <= windowheight - 50 + player_speed) /\
  (-3 <= Rect.x (player g) <= 1233 /\ -3 <= Rect.y (player g) <= 673).
Proof.
  intro H.
  assert (N : near_window (player g)).
  { eapply (run_invariant frames (fun g => near_window (player g)));
      [|idtac|exact H].
    - intros g0 i g' H0 Hf. eapply play_frame_near_window; eassumption.
    - cbv. repeat split; discriminate. }
  split; [exact N|].
  unfold near_window, player_speed, windowwidth, windowheight in N. lia.
Qed.

(** C10 at a run: 200 frames with A and W held. *)
Lemma player_overshoots_by_one_step_witness :
  exists g,
    play 8 0 (repeat (keys_only true false true false false 0) 200) = Running g /\
    -3 <= Rect.x (player g) <= 1233 /\ -3 <= Rect.y (player g) <= 673.
Proof.
  eexists. split; [vm_compute; reflexivity|].
  apply (player_overshoots_by_one_step 8 0
           (repeat (keys_only true false true false false 0) 200)).
  vm_compute. reflexivity.
Defined.

(** ** The difficulty ramp (lines 808-812) *)

Lemma difficulty_increase_timer (g : Game) :
  timer_ok g ->
  timer_ok (difficulty_increase g) /\
  meteoroid_timer (difficulty_increase g) = Z.max 200 (meteoroid_timer g - 100).
Proof.
  intros [H [k Hk]]. unfold timer_ok, difficulty_increase.
  cbn [meteoroid_timer set_difficulty].
  destruct (Z.ltb_spec 200 (meteoroid_timer g)).
  - repeat split; [lia| exists (k - 1); lia | lia].
  - repeat split; [lia| exists k; lia | lia].
Qed.

Lemma handle_events_difficulty (es : list Event) (g g1 : Game) :
  handle_events g es = Some g1 -> timer_ok g ->
  timer_ok g1 /\
  meteoroid_timer g1 = Z.max 200 (meteoroid_timer g - 100 * Z.of_nat (fires es)) /\
  (meteoroid_speed g1 == meteoroid_speed g + inject_Z (Z.of_nat (fires es)) * (1 # 4))%Q.
Proof.
  revert g. induction es as [|e es IH]; intros g H Hg; cbn [handle_events] in H.
  - injection H as <-. split; [exact Hg|]. destruct Hg as [Hg _].
    cbn. split; [lia|]. ring.
  - destruct e; cbn [handle_event] in H; try discriminate.
    + apply IH in H; [|exact Hg]. exact H.
    + destruct (difficulty_increase_timer g Hg) as [Hok Ht].
      apply IH in H; [|exact Hok]. destruct H as (H1 & H2 & H3).
      split; [exact H1|]. unfold fires in *. cbn [filter is_fire length].
      rewrite Nat2Z.inj_succ. split.
      * rewrite H2, Ht. lia.
      * rewrite H3. unfold difficulty_increase. cbn [meteoroid_speed set_difficulty].
        unfold Z.succ. rewrite inject_Z_plus. ring.
    + apply IH in H; [|exact Hg]. exact H.
Qed.

Lemma play_frame_difficulty (frames : Z) (g : Game) (i : Input) (g' : Game) :
  play_frame frames g i = Running g' -> timer_ok g ->
  timer_ok g' /\
  meteoroid_timer g' =
    Z.max 200 (meteoroid_timer g - 100 * Z.of_nat (fires (events i))) /\
  (meteoroid_speed g' ==
   meteoroid_speed g + inject_Z (Z.of_nat (fires (events i))) * (1 # 4))%Q.
Proof.
  intros H Hg. apply play_frame_parts in H. destruct H as (g1 & He & ->).
  apply handle_events_difficulty in He; [|exact Hg].
  unfold timer_ok.
  destruct (frame_world_static frames
              (before_collisions (handle_space (handle_keys g1 i) i)))
    as (_ & -> & -> & _).
  destruct (before_collisions_static (handle_space (handle_keys g1 i) i))
    as (_ & _ & _ & -> & -> & _).
  destruct (handle_space_static (handle_keys g1 i) i)
    as (_ & _ & _ & _ & -> & -> & _).
  destruct (handle_keys_static g1 i) as (_ & _ & _ & _ & -> & -> & _).
  exact He.
Qed.

Lemma run_difficulty (frames : Z) (inputs : list Input) (g g' : Game) :
  run frames g inputs = Running g' -> timer_ok g ->
  timer_ok g' /\
  meteoroid_timer g' =
    Z.max 200 (meteoroid_timer g - 100 * Z.of_nat (total_fires inputs)) /\
  (meteoroid_speed g' ==
   meteoroid_speed g + inject_Z (Z.of_nat (total_fires inputs)) * (1 # 4))%Q.
Proof.
  revert g. induction inputs as [|i rest IH]; intros g H Hg; cbn [run] in H.
  - injection H as <-. split; [exact Hg|]. destruct Hg as [Hg _].
    cbn. split; [lia|]. ring.
  - destruct (play_frame frames g i) as [g1| |] eqn:E; try discriminate.
    destruct (play_frame_difficulty _ _ _ _ E Hg) as (H1 & H2 & H3).
    destruct (IH _ H H1) as (I1 & I2 & I3).
    split; [exact I1|]. cbn [total_fires]. rewrite Nat2Z.inj_add. split.
    + rewrite I2, H2. lia.
    + rewrite I3, H3, inject_Z_plus. ring.
Qed.

Lemma initial_timer_ok (t0 : Z) : timer_ok (initial t0).
Proof. split; [cbn; lia | exists 15; reflexivity]. Qed.

(** C5. Over every run, whatever escalation events the frames bring, the
    spawn interval never goes up and never falls below 200 ms, and the
    meteoroid speed never goes down. *)
Theorem difficulty_is_monotone (frames t0 : Z) (inputs : list Input) (g : Game)
    (i : Input) (g' : Game) :
  play frames t0 inputs = Running g ->
  play_frame frames g i = Running g' ->
  200 <= meteoroid_timer g' <= meteoroid_timer g /\
  meteoroid_timer g <= 1500 /\
  (meteoroid_speed g <= meteoroid_speed g')%Q.
Proof.
  intros Hrun Hstep.
  destruct (run_difficulty _ _ _ _ Hrun (initial_timer_ok t0)) as (Hg & Ht & _).
  destruct (play_frame_difficulty _ _ _ _ Hstep Hg) as ((H1 & _) & H2 & H3).
  destruct Hg as [Hg _]. cbn [initial meteoroid_timer] in Ht.
  repeat split; try lia.
  rewrite H3. rewrite <- (Qplus_0_r (meteoroid_speed g)) at 1.
  apply Qplus_le_r. apply Qmult_le_0_compat; [|discriminate].
  change 0%Q with (inject_Z 0). rewrite <- Zle_Qle. lia.
Qed.

(** C5 at a run: one escalation event, then a frame with two. *)
Lemma difficulty_is_monotone_witness :
  play 8 0 [escalation 1] = Running after_one_escalation /\
  play_frame 8 after_one_escalation (escalation 2) = Running after_three_escalations /\
  200 <= meteoroid_timer after_three_escalations
      <= meteoroid_timer after_one_escalation /\
  meteoroid_timer after_one_escalation <= 1500 /\
  (meteoroid_speed after_one_escalation <= meteoroid_speed after_three_escalations)%Q.
Proof.
  assert (H1 : play 8 0 [escalation 1] = Running after_one_escalation)
    by (vm_compute; reflexivity).
  assert (H2 : play_frame 8 after_one_escalation (escalation 2)
               = Running after_three_escalations)
    by (vm_compute; reflexivity).
  split; [exact H1|]. split; [exact H2|].
  exact (difficulty_is_monotone 8 0 [escalation 1] after_one_escalation
           (escalation 2) after_three_escalations H1 H2).
Defined.

(** C6. From the initial difficulty (interval 1500 ms, speed 4.0), a run
    whose frames handled exactly three escalation events has interval
    1200 ms and speed 4.75; a single event adds 0.25 to the speed and, above
    the floor, takes 100 ms off the interval. *)
Theorem three_escalations (frames t0 : Z) (inputs : list Input) (g : Game) :
  play frames t0 inputs = Running g ->
  total_fires inputs = 3%nat ->
  (meteoroid_timer (initial t0) = 1500 /\ (meteoroid_speed (initial t0) == 4)%Q) /\
  (meteoroid_timer g = 1200 /\ (meteoroid_speed g == 4.75)%Q) /\
  (forall g0, 200 < meteoroid_timer g0 ->
     meteoroid_timer (difficulty_increase g0) = meteoroid_timer g0 - 100 /\
     (meteoroid_speed (difficulty_increase g0) == meteoroid_speed g0 + 0.25)%Q).
Proof.
  intros Hrun Hn.
  destruct (run_difficulty _ _ _ _ Hrun (initial_timer_ok t0)) as (_ & Ht & Hs).
  rewrite Hn in Ht, Hs. cbn [initial meteoroid_timer meteoroid_speed] in Ht, Hs.
  split; [split; reflexivity|]. split.
  - split; [rewrite Ht; reflexivity | rewrite Hs; reflexivity].
  - intros g0 H0. unfold difficulty_increase.
    cbn [meteoroid_timer meteoroid_speed set_difficulty].
    destruct (Z.ltb_spec 200 (meteoroid_timer g0)); [|lia].
    split; [reflexivity|]. apply Qplus_comp; reflexivity.
Qed.

(** C6 at a run: two frames that bring three escalation events. *)
Lemma three_escalations_witness :
  play 8 0 [escalation 1; escalation 2] = Running after_three_escalations /\
  total_fires [escalation 1; escalation 2] = 3%nat /\
  meteoroid_timer after_three_escalations = 1200 /\
  (meteoroid_speed after_three_escalations == 4.75)%Q.
Proof.
  assert (H1 : play 8 0 [escalation 1; escalation 2] = Running after_three_escalations)
    by (vm_compute; reflexivity).
  assert (H2 : total_fires [escalation 1; escalation 2] = 3%nat) by reflexivity.
  split; [exact H1|]. split; [exact H2|].
  exact (proj1 (proj2 (three_escalations 8 0 [escalation 1; escalation 2]
                         after_three_escalations H1 H2))).
Defined.

(** ** The score (lines 802 and 883) *)

Lemma frame_inputs_score (g : Game) (i : Input) (g2 : Game) :
  frame_inputs g i = Some g2 -> score g2 = score g + 1.
Proof.
  unfold frame_inputs.
  destruct (handle_events (begin_frame g) (events i)) as [g1|] eqn:E; [|discriminate].
  intro H. injection H as <-.
  destruct (handle_space_static (handle_keys g1 i) i) as (-> & _).
  destruct (handle_keys_static g1 i) as (-> & _).
  apply handle_events_static in E. destruct E as (-> & _). reflexivity.
Qed.

(** C7. A frame after which the run goes on raises the score by exactly 1
    for the frame plus 100 for each meteoroid destroyed in it; the score
    never goes down, in one frame or over any sequence of frames. *)
Theorem score_grows (frames : Z) (g : Game) (i : Input) (g' : Game) :
  play_frame frames g i = Running g' ->
  score g' = score g + 1 + 100 * Z.of_nat (length (destroyed g i)) /\
  score g <= score g' /\
  (forall rest g'', run frames g' rest = Running g'' -> score g <= score g'').
Proof.
  assert (step : forall g i g', play_frame frames g i = Running g' ->
            score g' = score g + 1 + 100 * Z.of_nat (length (destroyed g i))).
  { clear. intros g i g' H. apply play_frame_running in H.
    destruct H as (g2 & H2 & _ & ->). unfold destroyed. rewrite H2.
    destruct (frame_world_static frames (before_collisions g2))
      as (_ & _ & _ & _ & _ & ->).
    rewrite resolve_hits_score, length_map.
    destruct (before_collisions_static g2) as (-> & _).
    rewrite (frame_inputs_score _ _ _ H2). reflexivity. }
  intro H. pose proof (step _ _ _ H) as E.
  split; [exact E|]. split; [lia|].
  intros rest g'' Hrun.
  apply (run_invariant frames (fun s => score g <= score s)) with (inputs := rest) (g := g');
    [|lia|exact Hrun].
  intros s j s' Hs Hj. apply step in Hj. lia.
Qed.

(** ** Lists of sprites *)

Lemma filter_twice {S : Type} (p q : S -> bool) (l : list S) :
  filter p (filter q l) = filter (fun s => q s && p s) l.
Proof.
  induction l as [|a l IH]; cbn; [reflexivity|].
  destruct (q a); cbn; [destruct (p a)|]; rewrite ?IH; reflexivity.
Qed.

Lemma idents_filter_NoDup (p : Meteoroid.t -> bool) (l : list Meteoroid.t) :
  NoDup (idents l) -> NoDup (idents (filter p l)).
Proof.
  unfold idents. induction l as [|a l IH]; cbn; intro H; [constructor|].
  inversion H as [|? ? Hn Hl]; subst.
  destruct (p a); cbn; auto.
  constructor; auto. intro Hin. apply Hn.
  apply in_map_iff in Hin. destruct Hin as (m & Hm & Hin).
  apply filter_In in Hin. apply in_map_iff. exists m. tauto.
Qed.

Lemma idents_filter_In (p : Meteoroid.t -> bool) (l : list Meteoroid.t) (n : nat) :
  In n (idents (filter p l)) -> In n (idents l).
Proof.
  unfold idents. intro H. apply in_map_iff in H. destruct H as (m & Hm & Hin).
  apply filter_In in Hin. apply in_map_iff. exists m. tauto.
Qed.

(** In a group without duplicates an identity names one member. *)
Lemma ident_unique (l : list Meteoroid.t) (a b : Meteoroid.t) :
  NoDup (idents l) -> In a l -> In b l ->
  Meteoroid.ident a = Meteoroid.ident b -> a = b.
Proof.
  unfold idents. induction l as [|c l IH]; cbn; intros H Ha Hb E; [contradiction|].
  inversion H as [|? ? Hn Hl]; subst.
  destruct Ha as [->|Ha], Hb as [->|Hb]; auto.
  - exfalso. apply Hn. rewrite E. apply in_map. exact Hb.
  - exfalso. apply Hn. rewrite <- E. apply in_map. exact Ha.
Qed.

Lemma has_spec (sprite : Meteoroid.t) (group : list Meteoroid.t) :
  Sprite.has sprite group = true <-> In (Meteoroid.ident sprite) (idents group).
Proof.
  unfold Sprite.has, idents. rewrite existsb_exists. split.
  - intros (m & Hin & E). apply Nat.eqb_eq in E. rewrite <- E. apply in_map. exact Hin.
  - intro H. apply in_map_iff in H. destruct H as (m & E & Hin).
    exists m. split; [exact Hin|]. apply Nat.eqb_eq. exact E.
Qed.

Lemma add_fresh (sprite : Meteoroid.t) (group : list Meteoroid.t) :
  ~ In (Meteoroid.ident sprite) (idents group) ->
  Sprite.add sprite group = group ++ [sprite].
Proof.
  intro H. unfold Sprite.add. destruct (Sprite.has sprite group) eqn:E; [|reflexivity].
  apply has_spec in E. contradiction.
Qed.

Lemma among_spec (ks : list Meteoroid.t) (m : Meteoroid.t) :
  among ks m = true <-> In (Meteoroid.ident m) (idents ks).
Proof.
  unfold among, idents. rewrite existsb_exists. split.
  - intros (k & Hin & E). apply Nat.eqb_eq in E. rewrite E. apply in_map. exact Hin.
  - intro H. apply in_map_iff in H. destruct H as (k & E & Hin).
    exists k. split; [exact Hin|]. apply Nat.eqb_eq. symmetry. exact E.
Qed.

(** ** groupcollide on meteoroids and bullets (line 878) *)

Section GroupCollide.

Let collide := Sprite.groupcollide Meteoroid.rect Bullet.rect.

(** The bullets that are left are the ones no meteoroid overlaps. *)
Lemma groupcollide_bullets (groupa : list Meteoroid.t) (groupb : list Bullet.t) :
  snd (collide groupa groupb) = filter (untouched groupa) groupb.
Proof.
  subst collide. revert groupb.
  induction groupa as [|s rest IH]; intro groupb; cbn [Sprite.groupcollide].
  - cbn. induction groupb as [|b l IHl]; cbn; congruence.
  - rewrite spritecollide_filter.
    specialize (IH (filter (fun b => negb (Rect.colliderect (Meteoroid.rect s) (Bullet.rect b))) groupb)).
    destruct (Sprite.groupcollide _ _ rest _) as [crashed groupb2].
    cbn [snd] in *. rewrite IH, filter_twice. reflexivity.
Qed.

(** The keys of the dictionary are members of the first group... *)
Lemma groupcollide_keys_in (groupa : list Meteoroid.t) (groupb : list Bullet.t)
    (k : Meteoroid.t) :
  In k (map fst (fst (collide groupa groupb))) -> In k groupa.
Proof.
  subst collide. revert groupb.
  induction groupa as [|s rest IH]; intro groupb; cbn [Sprite.groupcollide].
  - cbn. auto.
  - rewrite spritecollide_filter.
    specialize (IH (filter (fun b => negb (Rect.colliderect (Meteoroid.rect s) (Bullet.rect b))) groupb)).
    destruct (Sprite.groupcollide _ _ rest _) as [crashed groupb2].
    cbn [fst] in *.
    destruct (filter _ groupb); cbn; intuition.
Qed.

(** ... each of them once... *)
Lemma groupcollide_keys_NoDup (groupa : list Meteoroid.t) (groupb : list Bullet.t) :
  NoDup (idents groupa) ->
  NoDup (idents (map fst (fst (collide groupa groupb)))).
Proof.
  revert groupb.
  induction groupa as [|s rest IH]; intros groupb H.
  - cbn. constructor.
  - inversion H as [|? ? Hn Hl]; subst.
    pose proof (groupcollide_keys_in rest
      (filter (fun b => negb (Rect.colliderect (Meteoroid.rect s) (Bullet.rect b))) groupb)) as Hin.
    specialize (IH (filter (fun b => negb (Rect.colliderect (Meteoroid.rect s) (Bullet.rect b))) groupb) Hl).
    subst collide. cbn [Sprite.groupcollide]. rewrite spritecollide_filter.
    destruct (Sprite.groupcollide _ _ rest _) as [crashed groupb2].
    cbn [fst] in *.
    destruct (filter _ groupb); cbn; [exact IH|].
    constructor; [|exact IH].
    intro Hk. apply Hn. unfold idents in *. apply in_map_iff in Hk.
    destruct Hk as (k & E & Hk). rewrite <- E. apply in_map. auto.
Qed.

(** ... and each of them overlaps a bullet. *)
Lemma groupcollide_keys_overlap (groupa : list Meteoroid.t) (groupb : list Bullet.t)
    (k : Meteoroid.t) :
  In k (map fst (fst (collide groupa groupb))) ->
  exists b, In b groupb /\ overlaps k b = true.
Proof.
  subst collide. revert groupb.
  induction groupa as [|s rest IH]; intro groupb; cbn [Sprite.groupcollide].
  - cbn. contradiction.
  - rewrite spritecollide_filter.
    specialize (IH (filter (fun b => negb (Rect.colliderect (Meteoroid.rect s) (Bullet.rect b))) groupb)).
    destruct (Sprite.groupcollide _ _ rest _) as [crashed groupb2].
    cbn [fst] in *.
    assert (R : In k (map fst crashed) -> exists b, In b groupb /\ overlaps k b = true).
    { intro H. destruct (IH H) as (b & Hb & Ho). apply filter_In in Hb.
      exists b. tauto. }
    destruct (filter (fun b => Rect.colliderect _ _) groupb) as [|b0 l] eqn:E;
      cbn; [exact R|].
    intros [<-|H]; [|auto].
    assert (Hb : In b0 (b0 :: l)) by (left; reflexivity).
    rewrite <- E in Hb. apply filter_In in Hb. exists b0. exact Hb.
Qed.

(** A meteoroid is a key as soon as it overlaps a bullet that no
    meteoroid before it in the group overlaps. *)
Lemma groupcollide_hit (before after : list Meteoroid.t) (m : Meteoroid.t)
    (groupb : list Bullet.t) (b : Bullet.t) :
  In b groupb -> overlaps m b = true -> untouched before b = true ->
  In m (map fst (fst (collide (before ++ m :: after) groupb))).
Proof.
  subst collide. revert groupb.
  induction before as [|s rest IH]; intros groupb Hb Ho Hu;
    cbn [app Sprite.groupcollide]; rewrite spritecollide_filter.
  - destruct (Sprite.groupcollide _ _ after _) as [crashed groupb2].
    cbn [fst].
    destruct (filter (fun b => Rect.colliderect _ _) groupb) as [|b0 l] eqn:E.
    + exfalso. assert (Hin : In b (filter (fun b => Rect.colliderect (Meteoroid.rect m) (Bullet.rect b)) groupb))
        by (apply filter_In; split; assumption).
      rewrite E in Hin. exact Hin.
    + left. reflexivity.
  - cbn [untouched forallb] in Hu. apply andb_prop in Hu. destruct Hu as [Hs Hu].
    specialize (IH (filter (fun b => negb (Rect.colliderect (Meteoroid.rect s) (Bullet.rect b))) groupb)).
    destruct (Sprite.groupcollide _ _ (rest ++ m :: after) _) as [crashed groupb2].
    cbn [fst] in *.
    assert (Hm : In m (map fst crashed)).
    { apply IH; [|exact Ho|exact Hu]. apply filter_In. split; assumption. }
    destruct (filter (fun b => Rect.colliderect _ _) groupb); cbn; auto.
Qed.

(** And only then: a key overlaps a bullet that no meteoroid before it in
    the group overlaps. *)
Lemma groupcollide_key (before after : list Meteoroid.t) (m : Meteoroid.t)
    (groupb : list Bullet.t) :
  NoDup (idents (before ++ m :: after)) ->
  In (Meteoroid.ident m)
     (idents (map fst (fst (collide (before ++ m :: after) groupb)))) ->
  exists b, reaches before groupb m b.
Proof.
  revert groupb.
  induction before as [|s rest IH]; intros groupb Hn Hk.
  - cbn [app] in Hn, Hk. inversion Hn as [|? ? Hm Hl]; subst.
    pose proof (groupcollide_keys_in after
      (filter (fun b => negb (Rect.colliderect (Meteoroid.rect m) (Bullet.rect b))) groupb))
      as Hin.
    subst collide. cbn [Sprite.groupcollide] in Hk. rewrite spritecollide_filter in Hk.
    destruct (Sprite.groupcollide _ _ after _) as [crashed groupb2].
    cbn [fst] in *.
    assert (R : ~ In (Meteoroid.ident m) (idents (map fst crashed))).
    { intro H. apply Hm. unfold idents in *. apply in_map_iff in H.
      destruct H as (k & E & H). rewrite <- E. apply in_map. auto. }
    destruct (filter (fun b => Rect.colliderect _ _) groupb) as [|b0 l] eqn:E;
      [contradiction|].
    assert (Hb : In b0 (b0 :: l)) by (left; reflexivity).
    rewrite <- E in Hb. apply filter_In in Hb. destruct Hb as [Hb Ho].
    exists b0. repeat split; assumption.
  - cbn [app] in Hn, Hk. inversion Hn as [|? ? Hs Hl]; subst.
    specialize (IH (filter (fun b => negb (Rect.colliderect (Meteoroid.rect s) (Bullet.rect b))) groupb) Hl).
    subst collide. cbn [Sprite.groupcollide] in Hk. rewrite spritecollide_filter in Hk.
    destruct (Sprite.groupcollide _ _ (rest ++ m :: after) _) as [crashed groupb2].
    cbn [fst] in *.
    assert (R : In (Meteoroid.ident m) (idents (map fst crashed)) ->
                exists b, reaches (s :: rest) groupb m b).
    { intro H. destruct (IH H) as (b & Hb & Ho & Hu). apply filter_In in Hb.
      destruct Hb as [Hb Hsb]. exists b. repeat split; [exact Hb|exact Ho|].
      cbn [untouched forallb]. unfold overlaps at 1. rewrite Hsb. exact Hu. }
    destruct (filter (fun b => Rect.colliderect _ _) groupb) as [|b0 l];
      [exact (R Hk)|].
    cbn in Hk. destruct Hk as [E|Hk]; [|exact (R Hk)].
    exfalso. apply Hs. rewrite E. unfold idents. rewrite map_app.
    apply in_app_iff. right. left. reflexivity.
Qed.

End GroupCollide.

(** ** The hit loop (lines 879-883) *)

Lemma fold_explode_alive (ks : list Meteoroid.t) (g : Game) :
  meteoroid_group (fold_left explode ks g) =
  filter (fun m => negb (among ks m)) (meteoroid_group g).
Proof.
  revert g. induction ks as [|k ks IH]; intro g; cbn [fold_left].
  - cbn. induction (meteoroid_group g) as [|a l IHl]; cbn; congruence.
  - rewrite IH. unfold explode at 1.
    cbn [meteoroid_group set_score set_meteoroids].
    unfold Sprite.remove. rewrite filter_twice. apply filter_ext.
    intro m. unfold among. cbn [existsb Meteoroid.set_state Meteoroid.ident].
    rewrite negb_orb. reflexivity.
Qed.

Lemma fold_explode_exploded (ks : list Meteoroid.t) (g : Game) :
  NoDup (idents ks) ->
  (forall n, In n (idents ks) -> ~ In n (idents (meteoroid_group_exploded g))) ->
  meteoroid_group_exploded (fold_left explode ks g) =
  meteoroid_group_exploded g ++ map bump ks.
Proof.
  revert g. induction ks as [|k ks IH]; intros g Hnd Hdis; cbn [fold_left map].
  - rewrite app_nil_r. reflexivity.
  - cbn [idents map] in Hnd. inversion Hnd as [|? ? Hk Hks]; subst.
    assert (E : meteoroid_group_exploded (explode g k)
                = meteoroid_group_exploded g ++ [bump k]).
    { unfold explode. cbn [meteoroid_group_exploded set_score set_meteoroids].
      apply add_fresh. cbn [Meteoroid.set_state Meteoroid.ident].
      apply Hdis. left. reflexivity. }
    rewrite IH; [|exact Hks|].
    + rewrite E, <- app_assoc. reflexivity.
    + intros n Hn. rewrite E. unfold idents. rewrite map_app, in_app_iff.
      intros [Hin|Hin].
      * revert Hin. apply Hdis. right. exact Hn.
      * cbn in Hin. destruct Hin as [<-|[]]. apply Hk. exact Hn.
Qed.

(** What lines 878-883 do to the three groups. *)
Lemma resolve_hits_groups (g : Game) :
  NoDup (idents (meteoroid_group g)) ->
  (forall n, In n (idents (meteoroid_group g)) ->
             ~ In n (idents (meteoroid_group_exploded g))) ->
  let ks := map fst (fst (hit_of g)) in
  meteoroid_group (resolve_hits g) =
    filter (fun m => negb (among ks m)) (meteoroid_group g) /\
  meteoroid_group_exploded (resolve_hits g) =
    meteoroid_group_exploded g ++ map bump ks /\
  bullet_group (resolve_hits g) = filter (untouched (meteoroid_group g)) (bullet_group g).
Proof.
  intros Hnd Hdis ks.
  pose proof (groupcollide_keys_NoDup (meteoroid_group g) (bullet_group g) Hnd) as Hk.
  pose proof (groupcollide_keys_in (meteoroid_group g) (bullet_group g)) as Hin.
  pose proof (groupcollide_bullets (meteoroid_group g) (bullet_group g)) as Hb.
  subst ks. unfold resolve_hits, hit_of in *.
  destruct (Sprite.groupcollide _ _ _ _) as [hit bullets]. cbn [fst snd] in *.
  split; [|split].
  - rewrite fold_explode_alive. reflexivity.
  - rewrite fold_explode_exploded; [reflexivity|exact Hk|].
    intros n Hn. cbn [meteoroid_group_exploded set_bullets]. apply Hdis.
    unfold idents in *. apply in_map_iff in Hn. destruct Hn as (k & <- & Hn).
    apply in_map. apply Hin. exact Hn.
  - destruct (fold_explode_static (map fst hit) (set_bullets g bullets))
      as (_ & -> & _). cbn [bullet_group set_bullets]. exact Hb.
Qed.

(** ** Group.update on meteoroids (lines 888-889) *)

Lemma update_meteoroids_In (frames : Z) (speed : Q) (group : list Meteoroid.t)
    (m' : Meteoroid.t) :
  In m' (Sprite.update_meteoroids frames speed group) <->
  exists m, In m group /\ Meteoroid.update frames speed m = (false, m').
Proof.
  induction group as [|a l IH]; cbn [Sprite.update_meteoroids].
  - split; [contradiction|]. intros (m & [] & _).
  - destruct (Meteoroid.update frames speed a) as [killed a'] eqn:E.
    destruct killed.
    + rewrite IH. split.
      * intros (m & Hin & Hm). exists m. split; [right|]; assumption.
      * intros (m & [<-|Hin] & Hm); [congruence|]. exists m. tauto.
    + cbn [In]. rewrite IH. split.
      * intros [<-|(m & Hin & Hm)]; [exists a; split; [left; reflexivity|exact E]|].
        exists m. split; [right|]; assumption.
      * intros (m & [<-|Hin] & Hm); [left; congruence|]. right. exists m. tauto.
Qed.

Lemma update_meteoroids_idents (frames : Z) (speed : Q) (group : list Meteoroid.t) :
  idents (Sprite.update_meteoroids frames speed group) =
  idents (filter (fun m => negb (Meteoroid.state m + 1 =? frames)) group).
Proof.
  unfold idents. induction group as [|a l IH]; cbn [Sprite.update_meteoroids filter map].
  - reflexivity.
  - unfold Meteoroid.update.
    destruct (Meteoroid.state a + 1 =? frames); cbn [negb]; [exact IH|].
    destruct (0 <? Meteoroid.state a); cbn; rewrite IH; reflexivity.
Qed.

(** [Meteoroid.update], case by case. *)
Lemma update_cases (frames : Z) (speed : Q) (m : Meteoroid.t) :
  Meteoroid.ident (snd (Meteoroid.update frames speed m)) = Meteoroid.ident m /\
  (Meteoroid.state m + 1 = frames ->
     Meteoroid.update frames speed m
     = (true, snd (Meteoroid.update frames speed m)) /\
     Meteoroid.state (snd (Meteoroid.update frames speed m)) = Meteoroid.state m) /\
  (Meteoroid.state m + 1 <> frames -> 0 < Meteoroid.state m ->
     Meteoroid.update frames speed m
     = (false, snd (Meteoroid.update frames speed m)) /\
     Meteoroid.state (snd (Meteoroid.update frames speed m)) = Meteoroid.state m + 1) /\
  (Meteoroid.state m + 1 <> frames -> Meteoroid.state m <= 0 ->
     Meteoroid.update frames speed m
     = (false, snd (Meteoroid.update frames speed m)) /\
     Meteoroid.state (snd (Meteoroid.update frames speed m)) = Meteoroid.state m).
Proof.
  unfold Meteoroid.update.
  destruct (Z.eqb_spec (Meteoroid.state m + 1) frames);
    [|destruct (Z.ltb_spec 0 (Meteoroid.state m))];
    cbn; repeat split; intros; try reflexivity; try lia.
Qed.

(** ** The meteoroid groups stay well formed *)

Lemma wf_same_groups (g g' : Game) :
  meteoroid_group g' = meteoroid_group g ->
  meteoroid_group_exploded g' = meteoroid_group_exploded g ->
  next_ident g' = next_ident g ->
  well_formed g -> well_formed g'.
Proof.
  intros E1 E2 E3 [H1 H2 H3 H4 H5 H6].
  constructor; rewrite ?E1, ?E2, ?E3; assumption.
Qed.

Lemma wf_filter_alive (p : Meteoroid.t -> bool) (g g' : Game) :
  meteoroid_group g' = filter p (meteoroid_group g) ->
  meteoroid_group_exploded g' = meteoroid_group_exploded g ->
  next_ident g' = next_ident g ->
  well_formed g -> well_formed g'.
Proof.
  intros E1 E2 E3 [H1 H2 H3 H4 H5 H6].
  constructor; rewrite ?E1, ?E2, ?E3.
  - apply idents_filter_NoDup. exact H1.
  - exact H2.
  - intros n Hn. apply H3. eapply idents_filter_In. exact Hn.
  - intros n [Hn|Hn]; apply H4; [left; eapply idents_filter_In; exact Hn | right; exact Hn].
  - intros m Hm. apply filter_In in Hm. apply H5. tauto.
  - exact H6.
Qed.

Lemma wf_spawn (g : Game) (y : Z) : well_formed g -> well_formed (spawn g y).
Proof.
  intros [H1 H2 H3 H4 H5 H6].
  assert (F : ~ In (next_ident g) (idents (meteoroid_group g))).
  { intro Hin. assert (next_ident g < next_ident g)%nat by (apply H4; left; exact Hin). lia. }
  assert (E : meteoroid_group (spawn g y)
              = meteoroid_group g ++ [Meteoroid.init (next_ident g) y]).
  { unfold spawn. cbn [meteoroid_group set_next_ident set_meteoroids].
    apply add_fresh. exact F. }
  assert (I : idents (meteoroid_group (spawn g y))
              = idents (meteoroid_group g) ++ [next_ident g]).
  { rewrite E. unfold idents. rewrite map_app. reflexivity. }
  constructor; rewrite ?I.
  - apply NoDup_app; [exact H1 | repeat constructor; intros [] |].
    intros a Ha [<-|[]]. exact (F Ha).
  - exact H2.
  - intros n Hn. apply in_app_iff in Hn. destruct Hn as [Hn|[<-|[]]].
    + apply H3. exact Hn.
    + cbn [meteoroid_group_exploded spawn set_next_ident set_meteoroids].
      intro Hin. assert (next_ident g < next_ident g)%nat by (apply H4; right; exact Hin). lia.
  - cbn [next_ident meteoroid_group_exploded spawn set_next_ident set_meteoroids].
    intros n [Hn|Hn].
    + apply in_app_iff in Hn. destruct Hn as [Hn|[<-|[]]]; [|lia].
      apply Nat.lt_lt_succ_r. apply H4. left. exact Hn.
    + apply Nat.lt_lt_succ_r. apply H4. right. exact Hn.
  - rewrite E. intros m Hm. apply in_app_iff in Hm.
    destruct Hm as [Hm|[<-|[]]]; [apply H5; exact Hm | reflexivity].
  - exact H6.
Qed.

Lemma wf_handle_events (es : list Event) (g g1 : Game) :
  handle_events g es = Some g1 -> well_formed g -> well_formed g1.
Proof.
  revert g. induction es as [|e es IH]; intros g H Hg; cbn [handle_events] in H.
  - injection H as <-. exact Hg.
  - destruct e; cbn [handle_event] in H; try discriminate; eapply IH; try exact H.
    + apply wf_spawn. exact Hg.
    + revert Hg. apply wf_same_groups; reflexivity.
    + exact Hg.
Qed.

Lemma wf_frame_inputs (g : Game) (i : Input) (g2 : Game) :
  frame_inputs g i = Some g2 -> well_formed g -> well_formed g2.
Proof.
  unfold frame_inputs.
  destruct (handle_events (begin_frame g) (events i)) as [g1|] eqn:E; [|discriminate].
  intros H Hg. injection H as <-.
  apply wf_handle_events in E; [|revert Hg; apply wf_same_groups; reflexivity].
  destruct (handle_space_static (handle_keys g1 i) i) as (_ & _ & S3 & S4 & _ & _ & S7).
  destruct (handle_keys_static g1 i) as (_ & _ & K3 & K4 & _ & _ & _ & K8).
  revert E. apply wf_same_groups; congruence.
Qed.

Lemma before_collisions_alive (g : Game) :
  meteoroid_group (before_collisions g) =
  filter (fun m => negb (Rect.colliderect (player g) (Meteoroid.rect m)))
    (meteoroid_group g).
Proof.
  unfold before_collisions. rewrite player_collision_eq. cbn [snd].
  unfold update_player. destruct (Player.update _ _ _ _). reflexivity.
Qed.

Lemma wf_before_collisions (g : Game) :
  well_formed g -> well_formed (before_collisions g).
Proof.
  destruct (before_collisions_static g) as (_ & _ & E2 & _ & _ & E3 & _).
  apply (wf_filter_alive _ _ _ (before_collisions_alive g) E2 E3).
Qed.

Lemma wf_resolve_hits (g : Game) : well_formed g -> well_formed (resolve_hits g).
Proof.
  intros [H1 H2 H3 H4 H5 H6].
  destruct (resolve_hits_groups g H1 H3) as (E1 & E2 & _).
  destruct (resolve_hits_static g) as (_ & _ & _ & _ & E3).
  pose proof (groupcollide_keys_NoDup (meteoroid_group g) (bullet_group g) H1) as Hk.
  pose proof (groupcollide_keys_in (meteoroid_group g) (bullet_group g)) as Hin.
  fold (hit_of g) in Hk, Hin.
  set (ks := map fst (fst (hit_of g))) in *.
  assert (I : idents (meteoroid_group_exploded (resolve_hits g))
              = idents (meteoroid_group_exploded g) ++ idents ks).
  { rewrite E2. unfold idents. rewrite map_app, map_map. reflexivity. }
  assert (K : forall n, In n (idents ks) -> In n (idents (meteoroid_group g))).
  { intros n Hn. unfold idents in *. apply in_map_iff in Hn.
    destruct Hn as (k & <- & Hn). apply in_map. apply Hin. exact Hn. }
  constructor; rewrite ?I, ?E1, ?E3.
  - apply idents_filter_NoDup. exact H1.
  - apply NoDup_app; [exact H2 | exact Hk |].
    intros n Hn Hn'. apply (H3 n); [apply K; exact Hn' | exact Hn].
  - intros n Hn Hn'. apply in_app_iff in Hn'. destruct Hn' as [Hn'|Hn'].
    + apply (H3 n); [eapply idents_filter_In; exact Hn | exact Hn'].
    + unfold idents in Hn. apply in_map_iff in Hn. destruct Hn as (m & <- & Hm).
      apply filter_In in Hm. destruct Hm as [_ Hm].
      apply among_spec in Hn'. rewrite Hn' in Hm. discriminate.
  - intros n [Hn|Hn].
    + apply H4. left. eapply idents_filter_In. exact Hn.
    + apply in_app_iff in Hn. destruct Hn as [Hn|Hn]; apply H4; [right|left; apply K]; exact Hn.
  - intros m Hm. apply filter_In in Hm. apply H5. tauto.
  - rewrite E2. intros m Hm. apply in_app_iff in Hm. destruct Hm as [Hm|Hm].
    + apply H6. exact Hm.
    + apply in_map_iff in Hm. destruct Hm as (k & <- & Hk').
      unfold bump. cbn [Meteoroid.state Meteoroid.set_state].
      rewrite (H5 k); [lia|]. apply Hin. exact Hk'.
Qed.

Lemma wf_prune (g : Game) : well_formed g -> well_formed (prune g).
Proof.
  apply (wf_filter_alive
           (fun m => negb (Rect.colliderect window_left (Meteoroid.rect m)))).
  - unfold prune. rewrite !spritecollide_filter. reflexivity.
  - reflexivity.
  - reflexivity.
Qed.

Lemma wf_advance (frames : Z) (g : Game) :
  well_formed g -> well_formed (advance frames g).
Proof.
  intros [H1 H2 H3 H4 H5 H6].
  constructor;
    cbn [advance meteoroid_group meteoroid_group_exploded next_ident
         set_bullets set_meteoroids];
    rewrite ?update_meteoroids_idents.
  - apply idents_filter_NoDup. exact H1.
  - apply idents_filter_NoDup. exact H2.
  - intros n Hn Hn'. apply (H3 n); eapply idents_filter_In; eassumption.
  - intros n [Hn|Hn]; apply H4; [left|right]; eapply idents_filter_In; exact Hn.
  - intros m' Hm. apply update_meteoroids_In in Hm. destruct Hm as (m & Hm & E).
    destruct (update_cases frames (meteoroid_speed g) m) as (_ & C1 & _ & C3).
    specialize (H5 m Hm). rewrite E in C1, C3. cbn [snd] in C1, C3.
    destruct (Z.eq_dec (Meteoroid.state m + 1) frames) as [e|n].
    + destruct (C1 e) as [C _]. discriminate.
    + destruct (C3 n) as [_ C]; [lia|]. lia.
  - intros m' Hm. apply update_meteoroids_In in Hm. destruct Hm as (m & Hm & E).
    destruct (update_cases frames (meteoroid_speed g) m) as (_ & C1 & C2 & _).
    specialize (H6 m Hm). rewrite E in C1, C2. cbn [snd] in C1, C2.
    destruct (Z.eq_dec (Meteoroid.state m + 1) frames) as [e|n].
    + destruct (C1 e) as [C _]. discriminate.
    + destruct (C2 n) as [_ C]; [lia|]. lia.
Qed.

Lemma wf_play_frame (frames : Z) (g : Game) (i : Input) (g' : Game) :
  well_formed g -> play_frame frames g i = Running g' -> well_formed g'.
Proof.
  intros Hg H. apply play_frame_running in H. destruct H as (g2 & H2 & _ & ->).
  unfold frame_world.
  apply wf_advance, wf_prune, wf_resolve_hits, wf_before_collisions.
  eapply wf_frame_inputs; eassumption.
Qed.

Lemma wf_initial (t0 : Z) : well_formed (initial t0).
Proof.
  constructor; cbn; try constructor; try tauto; intros ? []; try tauto.
Qed.

Lemma wf_play (frames t0 : Z) (inputs : list Input) (g : Game) :
  play frames t0 inputs = Running g -> well_formed g.
Proof.
  apply (run_invariant frames well_formed).
  - intros g0 i g' H0 Hf. eapply wf_play_frame; eassumption.
  - apply wf_initial.
Qed.

Lemma wf_groups_apart (g : Game) : well_formed g -> groups_apart g.
Proof.
  intros [H1 H2 H3 H4 H5 H6]. repeat split; auto.
  intros m Hm Hm'. apply (H3 (Meteoroid.ident m)); apply in_map; assumption.
Qed.

(** C9. At every frame a run reaches, and at every stage of the frame that
    follows (after the inputs, after the player's collision, after the hit
    loop, after the pruning), alive meteoroids have explosion state 0,
    exploding ones have a state of at least 1, and the two groups have no
    meteoroid in common. *)
Theorem alive_and_exploding_apart (frames t0 : Z) (inputs : list Input) (g : Game) :
  play frames t0 inputs = Running g ->
  groups_apart g /\
  (forall i g2, frame_inputs g i = Some g2 ->
     groups_apart g2 /\
     groups_apart (before_collisions g2) /\
     groups_apart (resolve_hits (before_collisions g2)) /\
     groups_apart (before_advance g2) /\
     groups_apart (frame_world frames (before_collisions g2))).
Proof.
  intro H. apply wf_play in H. split; [apply wf_groups_apart; exact H|].
  intros i g2 H2. apply (wf_frame_inputs _ _ _ H2) in H.
  repeat split; apply wf_groups_apart; unfold before_advance, frame_world;
    auto using wf_before_collisions, wf_resolve_hits, wf_prune, wf_advance.
Qed.

(** ** Exploding meteoroids (lines 667-670 and 879-889) *)

Lemma resolve_hits_alive (g : Game) :
  meteoroid_group (resolve_hits g) =
  filter (fun m => negb (among (map fst (fst (hit_of g))) m)) (meteoroid_group g).
Proof.
  unfold resolve_hits. destruct (hit_of g) as [hit bullets]. cbn [fst].
  rewrite fold_explode_alive. reflexivity.
Qed.

(** Lines 870-890 bring no meteoroid into the alive group. *)
Lemma frame_world_alive_idents (frames : Z) (g2 : Game) (n : nat) :
  In n (idents (meteoroid_group (frame_world frames (before_collisions g2)))) ->
  In n (idents (meteoroid_group g2)).
Proof.
  unfold frame_world, advance.
  cbn [meteoroid_group set_bullets set_meteoroids].
  rewrite update_meteoroids_idents. intro H. apply idents_filter_In in H.
  unfold prune in H. rewrite !spritecollide_filter in H.
  cbn [meteoroid_group set_bullets set_meteoroids snd] in H.
  apply idents_filter_In in H. rewrite resolve_hits_alive in H.
  apply idents_filter_In in H. rewrite before_collisions_alive in H.
  apply idents_filter_In in H. exact H.
Qed.

(** The event loop brings in fresh identities only. *)
Lemma handle_events_alive_idents (es : list Event) (g g1 : Game) :
  handle_events g es = Some g1 ->
  (next_ident g <= next_ident g1)%nat /\
  forall n, In n (idents (meteoroid_group g1)) ->
            In n (idents (meteoroid_group g)) \/ (next_ident g <= n)%nat.
Proof.
  revert g. induction es as [|e es IH]; intros g H; cbn [handle_events] in H.
  - injection H as <-. auto.
  - destruct e; cbn [handle_event] in H; try discriminate; apply IH in H;
      try exact H.
    destruct H as [Hn Hin].
    cbn [spawn next_ident meteoroid_group set_next_ident set_meteoroids] in Hn, Hin.
    split; [lia|]. intros n Hn'. destruct (Hin n Hn') as [Ha|Ha]; [|right; lia].
    unfold Sprite.add in Ha. destruct (Sprite.has _ _); [left; exact Ha|].
    unfold idents in Ha. rewrite map_app in Ha. apply in_app_iff in Ha.
    destruct Ha as [Ha|[<-|[]]]; [left; exact Ha | right; cbn; lia].
Qed.

Lemma play_frame_alive_idents (frames : Z) (g : Game) (i : Input) (g' : Game) :
  play_frame frames g i = Running g' ->
  (next_ident g <= next_ident g')%nat /\
  forall n, In n (idents (meteoroid_group g')) ->
            In n (idents (meteoroid_group g)) \/ (next_ident g <= n)%nat.
Proof.
  intro H. apply play_frame_parts in H. destruct H as (g1 & He & ->).
  apply handle_events_alive_idents in He. destruct He as [Hn Hin].
  destruct (frame_world_static frames
              (before_collisions (handle_space (handle_keys g1 i) i)))
    as (_ & _ & _ & _ & -> & _).
  destruct (before_collisions_static (handle_space (handle_keys g1 i) i))
    as (_ & _ & _ & _ & _ & -> & _).
  destruct (handle_space_static (handle_keys g1 i) i)
    as (_ & _ & S3 & _ & _ & _ & ->).
  destruct (handle_keys_static g1 i) as (_ & _ & K3 & _ & _ & _ & _ & ->).
  split; [exact Hn|]. intros n H. apply frame_world_alive_idents in H.
  rewrite S3, K3 in H. apply Hin in H. exact H.
Qed.

(** Once retired, an identity stays retired. *)
Lemma retired_play_frame (frames : Z) (n : nat) (g : Game) (i : Input) (g' : Game) :
  retired n g -> play_frame frames g i = Running g' -> retired n g'.
Proof.
  intros [Hlt Hnot] H. apply play_frame_alive_idents in H. destruct H as [Hn Hin].
  split; [lia|]. intro Ha. destruct (Hin n Ha) as [Hb|Hb]; [contradiction|lia].
Qed.

Lemma retired_run (frames : Z) (n : nat) (inputs : list Input) (g g' : Game) :
  retired n g -> run frames g inputs = Running g' -> retired n g'.
Proof.
  apply (run_invariant frames (retired n)).
  intros g0 i g1. apply retired_play_frame.
Qed.

(** With at least one explosion image, exploding meteoroids never run
    past the last image. *)
Lemma frames_bounded_resolve_hits (frames : Z) (g : Game) :
  2 <= frames -> well_formed g -> frames_bounded frames g ->
  frames_bounded frames (resolve_hits g).
Proof.
  intros Hf [H1 H2 H3 H4 H5 H6] Hb m Hm.
  destruct (resolve_hits_groups g H1 H3) as (_ & E2 & _).
  rewrite E2 in Hm. apply in_app_iff in Hm. destruct Hm as [Hm|Hm]; [auto|].
  apply in_map_iff in Hm. destruct Hm as (k & <- & Hk).
  apply groupcollide_keys_in in Hk.
  unfold bump. cbn [Meteoroid.state Meteoroid.set_state]. rewrite (H5 k Hk). lia.
Qed.

Lemma frames_bounded_advance (frames : Z) (g : Game) :
  well_formed g -> frames_bounded frames g ->
  frames_bounded frames (advance frames g).
Proof.
  intros [H1 H2 H3 H4 H5 H6] Hb m' Hm.
  cbn [advance meteoroid_group_exploded set_bullets set_meteoroids] in Hm.
  apply update_meteoroids_In in Hm. destruct Hm as (m & Hm & E).
  destruct (update_cases frames (meteoroid_speed g) m) as (_ & C1 & C2 & _).
  specialize (H6 m Hm). specialize (Hb m Hm).
  rewrite E in C1, C2. cbn [snd] in C1, C2.
  destruct (Z.eq_dec (Meteoroid.state m + 1) frames) as [e|n].
  - destruct (C1 e) as [C _]. discriminate.
  - destruct (C2 n) as [_ C]; lia.
Qed.

Lemma frames_bounded_frame_inputs (frames : Z) (g : Game) (i : Input) (g2 : Game) :
  frame_inputs g i = Some g2 -> frames_bounded frames g ->
  frames_bounded frames (before_collisions g2).
Proof.
  unfold frame_inputs, frames_bounded.
  destruct (handle_events (begin_frame g) (events i)) as [g1|] eqn:E; [|discriminate].
  intros H Hg. injection H as <-.
  destruct (before_collisions_static (handle_space (handle_keys g1 i) i))
    as (_ & _ & -> & _).
  destruct (handle_space_static (handle_keys g1 i) i) as (_ & _ & _ & -> & _).
  destruct (handle_keys_static g1 i) as (_ & _ & _ & -> & _).
  apply handle_events_static in E. destruct E as (_ & _ & _ & -> & _).
  exact Hg.
Qed.

Lemma frames_bounded_before_advance (frames : Z) (g : Game) (i : Input) (g2 : Game) :
  2 <= frames -> well_formed g -> frames_bounded frames g ->
  frame_inputs g i = Some g2 ->
  well_formed (before_advance g2) /\ frames_bounded frames (before_advance g2).
Proof.
  intros Hf Hw Hb H2. unfold before_advance.
  pose proof (wf_before_collisions _ (wf_frame_inputs _ _ _ H2 Hw)) as W.
  split; [apply wf_prune, wf_resolve_hits; exact W|].
  pose proof (frames_bounded_resolve_hits frames _ Hf W
                (frames_bounded_frame_inputs frames _ _ _ H2 Hb)) as B.
  exact B.
Qed.

Lemma frames_bounded_play (frames t0 : Z) (inputs : list Input) (g : Game) :
  2 <= frames -> play frames t0 inputs = Running g ->
  well_formed g /\ frames_bounded frames g.
Proof.
  intro Hf.
  apply (run_invariant frames (fun g => well_formed g /\ frames_bounded frames g)).
  - intros g0 i g' [Hw Hb] H. split; [eapply wf_play_frame; eassumption|].
    apply play_frame_running in H. destruct H as (g2 & H2 & _ & ->).
    destruct (frames_bounded_before_advance frames _ _ _ Hf Hw Hb H2) as [W B].
    apply frames_bounded_advance; assumption.
  - split; [apply wf_initial|]. intros m [].
Qed.

Lemma frame_inputs_exploded (g : Game) (i : Input) (g2 : Game) :
  frame_inputs g i = Some g2 ->
  meteoroid_group_exploded g2 = meteoroid_group_exploded g.
Proof.
  unfold frame_inputs.
  destruct (handle_events (begin_frame g) (events i)) as [g1|] eqn:E; [|discriminate].
  intro H. injection H as <-.
  destruct (handle_space_static (handle_keys g1 i) i) as (_ & _ & _ & -> & _).
  destruct (handle_keys_static g1 i) as (_ & _ & _ & -> & _).
  apply handle_events_static in E. destruct E as (_ & _ & _ & -> & _).
  reflexivity.
Qed.

Lemma before_advance_exploded (g2 : Game) :
  well_formed g2 ->
  meteoroid_group_exploded (before_advance g2) =
  meteoroid_group_exploded g2
    ++ map bump (map fst (fst (hit_of (before_collisions g2)))).
Proof.
  intro W. apply wf_before_collisions in W. destruct W as [H1 _ H3 _ _ _].
  destruct (resolve_hits_groups _ H1 H3) as (_ & E & _).
  destruct (before_collisions_static g2) as (_ & _ & E2 & _).
  unfold before_advance, prune.
  cbn [meteoroid_group_exploded set_bullets set_meteoroids].
  rewrite E, E2. reflexivity.
Qed.

(** One update of the exploding group, seen from one of its members. *)
Lemma advance_exploding (frames : Z) (w : Game) (m : Meteoroid.t) :
  well_formed w -> In m (meteoroid_group_exploded w) ->
  (Meteoroid.state m = frames - 1 ->
     ~ In (Meteoroid.ident m) (idents (meteoroid_group_exploded (advance frames w)))) /\
  (Meteoroid.state m <> frames - 1 ->
     exists m', In m' (meteoroid_group_exploded (advance frames w)) /\
                Meteoroid.ident m' = Meteoroid.ident m /\
                Meteoroid.state m' = Meteoroid.state m + 1) /\
  retired (Meteoroid.ident m) (advance frames w).
Proof.
  intros [H1 H2 H3 H4 H5 H6] Hm.
  cbn [advance meteoroid_group_exploded meteoroid_group next_ident
       set_bullets set_meteoroids].
  split; [|split].
  - intros Hs Hin. rewrite update_meteoroids_idents in Hin.
    unfold idents in Hin. apply in_map_iff in Hin. destruct Hin as (m0 & E & Hin).
    apply filter_In in Hin. destruct Hin as [Hin Hp].
    assert (m0 = m) by (apply (ident_unique _ _ _ H2 Hin Hm E)). subst m0.
    destruct (Z.eqb_spec (Meteoroid.state m + 1) frames); [discriminate|lia].
  - intro Hs.
    destruct (update_cases frames (meteoroid_speed w) m) as (Hi & _ & C2 & _).
    destruct C2 as [C Cs]; [lia | specialize (H6 m Hm); lia |].
    exists (snd (Meteoroid.update frames (meteoroid_speed w) m)).
    split; [|split; assumption].
    apply update_meteoroids_In. exists m. split; assumption.
  - unfold retired.
    cbn [advance meteoroid_group next_ident set_bullets set_meteoroids].
    split.
    + apply H4. right. apply in_map. exact Hm.
    + rewrite update_meteoroids_idents. intro Hin. apply idents_filter_In in Hin.
      apply (H3 _ Hin). apply in_map. exact Hm.
Qed.

(** C2. With at least one explosion image, in every frame after which the
    run goes on, each meteoroid of the exploding group (the ones it held
    when the frame began and the ones hit in the frame) shows an explosion
    frame between 1 and the last one; the update removes it exactly when it
    is at the last frame and otherwise moves it on by exactly one frame; and
    it is not in the alive group after the frame nor at any later time. *)
Theorem exploding_meteoroids_advance (frames t0 : Z) (inputs : list Input)
    (g : Game) (i : Input) (g' : Game) :
  2 <= frames ->
  play frames t0 inputs = Running g ->
  play_frame frames g i = Running g' ->
  exists g2,
    frame_inputs g i = Some g2 /\
    g' = advance frames (before_advance g2) /\
    (forall m, In m (meteoroid_group_exploded g) ->
               In m (meteoroid_group_exploded (before_advance g2))) /\
    forall m, In m (meteoroid_group_exploded (before_advance g2)) ->
      1 <= Meteoroid.state m <= frames - 1 /\
      (Meteoroid.state m = frames - 1 <->
         ~ In (Meteoroid.ident m) (idents (meteoroid_group_exploded g'))) /\
      (Meteoroid.state m < frames - 1 ->
         exists m', In m' (meteoroid_group_exploded g') /\
                    Meteoroid.ident m' = Meteoroid.ident m /\
                    Meteoroid.state m' = Meteoroid.state m + 1) /\
      ~ In (Meteoroid.ident m) (idents (meteoroid_group g')) /\
      (forall rest g'', run frames g' rest = Running g'' ->
         ~ In (Meteoroid.ident m) (idents (meteoroid_group g''))).
Proof.
  intros Hf Hrun Hstep.
  destruct (frames_bounded_play frames t0 inputs g Hf Hrun) as [Hw Hb].
  apply play_frame_running in Hstep. destruct Hstep as (g2 & H2 & _ & ->).
  exists g2. split; [exact H2|]. split; [reflexivity|].
  destruct (frames_bounded_before_advance frames _ _ _ Hf Hw Hb H2) as [W B].
  split.
  - intros m Hm. rewrite before_advance_exploded by (eapply wf_frame_inputs; eassumption).
    apply in_app_iff. left. rewrite (frame_inputs_exploded _ _ _ H2). exact Hm.
  - intros m Hm. fold (before_advance g2).
    destruct (advance_exploding frames _ m W Hm) as (A1 & A2 & A3).
    pose proof (wf_exploded_state _ W m Hm) as L. pose proof (B m Hm) as U.
    split; [lia|]. split; [|split; [|split]].
    + split; [exact A1|]. intro Hn.
      destruct (Z.eq_dec (Meteoroid.state m) (frames - 1)) as [e|n]; [exact e|].
      exfalso. destruct (A2 n) as (m' & Hm' & E & _). apply Hn.
      rewrite <- E. apply in_map. exact Hm'.
    + intro Hlt. apply A2. lia.
    + exact (proj2 A3).
    + intros rest g'' Hr. exact (proj2 (retired_run frames _ rest _ _ A3 Hr)).
Qed.

(** ** Bullets against meteoroids (lines 878-883) *)

(** C1, as amended. In every frame of a run that gets to line 878, an alive
    meteoroid that overlaps at least one bullet which no meteoroid before
    it in the group overlaps goes from the alive to the exploding group
    exactly once, with explosion state 1, and is exactly one key of [hit];
    an alive meteoroid that overlaps no such bullet (it overlaps no bullet,
    or only bullets that meteoroids before it have used up) stays alive,
    does not explode and is no key of [hit]; every bullet that overlaps an
    alive meteoroid leaves the bullet group; and the score goes up by 100
    for each key of [hit], however many bullets overlap it. *)
Theorem hit_meteoroid_explodes_once (frames t0 : Z) (inputs : list Input)
    (g0 : Game) (i : Input) (g2 : Game)
    (before after : list Meteoroid.t) (m : Meteoroid.t) :
  play frames t0 inputs = Running g0 ->
  frame_inputs g0 i = Some g2 ->
  meteoroid_group (before_collisions g2) = before ++ m :: after ->
  let g := before_collisions g2 in
  let hit := map fst (fst (hit_of g)) in
  ((exists b, reaches before (bullet_group g) m b) ->
     ~ In (Meteoroid.ident m) (idents (meteoroid_group (resolve_hits g))) /\
     In (bump m) (meteoroid_group_exploded (resolve_hits g)) /\
     count_occ Nat.eq_dec
       (idents (meteoroid_group_exploded (resolve_hits g))) (Meteoroid.ident m) = 1%nat /\
     count_occ Nat.eq_dec (idents hit) (Meteoroid.ident m) = 1%nat) /\
  (~ (exists b, reaches before (bullet_group g) m b) ->
     In m (meteoroid_group (resolve_hits g)) /\
     ~ In (Meteoroid.ident m) (idents (meteoroid_group_exploded (resolve_hits g))) /\
     count_occ Nat.eq_dec (idents hit) (Meteoroid.ident m) = 0%nat) /\
  (forall m' b', In m' (meteoroid_group g) -> overlaps m' b' = true ->
                 ~ In b' (bullet_group (resolve_hits g))) /\
  score (resolve_hits g) = score g + 100 * Z.of_nat (length hit).
Proof.
  intros Hrun H2 E g hit.
  assert (W : well_formed g).
  { apply wf_before_collisions. eapply wf_frame_inputs; [exact H2|].
    eapply wf_play. exact Hrun. }
  pose proof (wf_resolve_hits g W) as W'.
  destruct (resolve_hits_groups g (wf_alive g W) (wf_disjoint g W)) as (E1 & E2 & E3).
  fold hit in E1, E2.
  assert (Hk : NoDup (idents hit))
    by (apply groupcollide_keys_NoDup; exact (wf_alive g W)).
  assert (Hg : In m (meteoroid_group g))
    by (fold g in E; rewrite E; apply in_app_iff; right; left; reflexivity).
  split; [|split; [|split]].
  - intros (b & Hb & Ho & Hu).
    assert (Hm : In m hit).
    { subst hit. unfold hit_of. fold g in E. rewrite E.
      apply groupcollide_hit with (b := b); assumption. }
    assert (Hx : In (bump m) (meteoroid_group_exploded (resolve_hits g))).
    { rewrite E2. apply in_app_iff. right. apply in_map. exact Hm. }
    split; [|split; [exact Hx|split]].
    + rewrite E1. intro Hin. unfold idents in Hin. apply in_map_iff in Hin.
      destruct Hin as (m0 & E0 & Hin). apply filter_In in Hin. destruct Hin as [_ Hn].
      assert (A : among hit m0 = true).
      { apply among_spec. rewrite E0. apply in_map. exact Hm. }
      rewrite A in Hn. discriminate.
    + apply NoDup_count_occ'; [exact (wf_exploded _ W')|].
      change (Meteoroid.ident m) with (Meteoroid.ident (bump m)).
      apply in_map. exact Hx.
    + apply NoDup_count_occ'; [exact Hk|]. apply in_map. exact Hm.
  - intro Hnone.
    assert (Hm : ~ In (Meteoroid.ident m) (idents hit)).
    { intro Hin. apply Hnone. subst hit. unfold hit_of in Hin. fold g in E.
      rewrite E in Hin. apply groupcollide_key in Hin; [exact Hin|].
      rewrite <- E. exact (wf_alive g W). }
    split; [|split].
    + rewrite E1. apply filter_In. split; [exact Hg|].
      apply negb_true_iff. apply not_true_is_false. intro A.
      apply Hm. apply among_spec. exact A.
    + rewrite E2. unfold idents. rewrite map_app, map_map. intro Hin.
      apply in_app_iff in Hin. destruct Hin as [Hin|Hin].
      * apply (wf_disjoint g W (Meteoroid.ident m)); [|exact Hin].
        apply in_map. exact Hg.
      * apply Hm. unfold idents. exact Hin.
    + apply count_occ_not_In. exact Hm.
  - intros m' b' Hm' Ho' Hin. rewrite E3 in Hin. apply filter_In in Hin.
    destruct Hin as [_ Hun]. unfold untouched in Hun.
    rewrite forallb_forall in Hun. specialize (Hun m' Hm').
    rewrite Ho' in Hun. discriminate.
  - subst hit. rewrite length_map. apply resolve_hits_score.
Qed.

(** The run that brings one bullet onto two meteoroids. *)
Lemma shot_then_two_spawns_run :
  play 8 0 shot_then_two_spawns = Running two_meteoroids_one_bullet.
Proof. vm_compute. reflexivity. Qed.

Lemma quiet_frame_of_the_hit :
  frame_inputs two_meteoroids_one_bullet idle
  = Some (set_score two_meteoroids_one_bullet 206).
Proof. vm_compute. reflexivity. Qed.

Lemma frame_of_the_hit :
  play_frame 8 two_meteoroids_one_bullet idle = Running after_the_hit.
Proof. vm_compute. reflexivity. Qed.

(** C1, as the claim words it, fails: a run reaches a frame in which two
    alive meteoroids overlap the same single bullet; the first one uses the
    bullet up and explodes, the second one stays alive, and the score gets
    one bonus. *)
Lemma shared_bullet_spares_second_meteoroid :
  play 8 0 shot_then_two_spawns = Running two_meteoroids_one_bullet /\
  play_frame 8 two_meteoroids_one_bullet idle = Running after_the_hit /\
  exists g2,
    frame_inputs two_meteoroids_one_bullet idle = Some g2 /\
    In meteoroid_B (meteoroid_group (before_collisions g2)) /\
    In the_bullet (bullet_group (before_collisions g2)) /\
    overlaps meteoroid_B the_bullet = true /\
    In meteoroid_B (meteoroid_group (resolve_hits (before_collisions g2))) /\
    ~ every_overlapped_meteoroid_explodes (before_collisions g2).
Proof.
  split; [exact shot_then_two_spawns_run|]. split; [exact frame_of_the_hit|].
  exists (set_score two_meteoroids_one_bullet 206).
  split; [exact quiet_frame_of_the_hit|].
  assert (HB : In meteoroid_B
                 (meteoroid_group (before_collisions (set_score two_meteoroids_one_bullet 206))))
    by (vm_compute; auto).
  assert (Hb : In the_bullet
                 (bullet_group (before_collisions (set_score two_meteoroids_one_bullet 206))))
    by (vm_compute; auto).
  assert (Ho : overlaps meteoroid_B the_bullet = true) by (vm_compute; reflexivity).
  assert (HB' : In meteoroid_B
                  (meteoroid_group
                     (resolve_hits (before_collisions (set_score two_meteoroids_one_bullet 206)))))
    by (vm_compute; auto).
  repeat (split; [assumption|]).
  intro claim.
  destruct (claim meteoroid_B HB (ex_intro _ the_bullet (conj Hb Ho))) as [Hnot _].
  apply Hnot. apply (in_map Meteoroid.ident) in HB'. exact HB'.
Qed.

(** C1, as amended, at the frame of the shared bullet: the first of the
    two meteoroids explodes, the second one stays alive. *)
Lemma hit_meteoroid_explodes_once_witness :
  play 8 0 shot_then_two_spawns = Running two_meteoroids_one_bullet /\
  frame_inputs two_meteoroids_one_bullet idle
    = Some (set_score two_meteoroids_one_bullet 206) /\
  In (bump meteoroid_A)
     (meteoroid_group_exploded
        (resolve_hits (before_collisions (set_score two_meteoroids_one_bullet 206)))) /\
  In meteoroid_B
     (meteoroid_group
        (resolve_hits (before_collisions (set_score two_meteoroids_one_bullet 206)))).
Proof.
  assert (H1 : play 8 0 shot_then_two_spawns = Running two_meteoroids_one_bullet)
    by (vm_compute; reflexivity).
  assert (H2 : frame_inputs two_meteoroids_one_bullet idle
               = Some (set_score two_meteoroids_one_bullet 206))
    by (vm_compute; reflexivity).
  assert (HA : meteoroid_group (before_collisions (set_score two_meteoroids_one_bullet 206))
               = [] ++ meteoroid_A :: [meteoroid_B])
    by (vm_compute; reflexivity).
  assert (HB : meteoroid_group (before_collisions (set_score two_meteoroids_one_bullet 206))
               = [meteoroid_A] ++ meteoroid_B :: [])
    by (vm_compute; reflexivity).
  assert (Hbs : bullet_group (before_collisions (set_score two_meteoroids_one_bullet 206))
                = [the_bullet])
    by (vm_compute; reflexivity).
  assert (H5 : overlaps meteoroid_A the_bullet = true) by (vm_compute; reflexivity).
  assert (H6 : untouched [meteoroid_A] the_bullet = false) by (vm_compute; reflexivity).
  split; [exact H1|]. split; [exact H2|]. split.
  - refine (proj1 (proj2 (proj1 (hit_meteoroid_explodes_once 8 0 shot_then_two_spawns
                                   two_meteoroids_one_bullet idle
                                   (set_score two_meteoroids_one_bullet 206)
                                   [] [meteoroid_B] meteoroid_A H1 H2 HA) _))).
    exists the_bullet. unfold reaches. rewrite Hbs.
    split; [left; reflexivity|]. split; [exact H5|reflexivity].
  - refine (proj1 (proj1 (proj2 (hit_meteoroid_explodes_once 8 0 shot_then_two_spawns
                                   two_meteoroids_one_bullet idle
                                   (set_score two_meteoroids_one_bullet 206)
                                   [meteoroid_A] [] meteoroid_B H1 H2 HB)) _)).
    intros (b & Hb & _ & Hu). rewrite Hbs in Hb.
    destruct Hb as [<-|[]]. rewrite H6 in Hu. discriminate.
Defined.

(** C7 at the frame of the shared bullet: 205 + 1 + 100. *)
Lemma score_grows_witness :
  play_frame 8 two_meteoroids_one_bullet idle = Running after_the_hit /\
  score after_the_hit
  = score two_meteoroids_one_bullet + 1
    + 100 * Z.of_nat (length (destroyed two_meteoroids_one_bullet idle)).
Proof.
  assert (H : play_frame 8 two_meteoroids_one_bullet idle = Running after_the_hit)
    by (vm_compute; reflexivity).
  split; [exact H|].
  exact (proj1 (score_grows 8 two_meteoroids_one_bullet idle after_the_hit H)).
Defined.

(** C9 at the state after the hit. *)
Lemma alive_and_exploding_apart_witness :
  play 8 0 (shot_then_two_spawns ++ [idle]) = Running after_the_hit /\
  groups_apart after_the_hit.
Proof.
  assert (H : play 8 0 (shot_then_two_spawns ++ [idle]) = Running after_the_hit)
    by (vm_compute; reflexivity).
  split; [exact H|].
  exact (proj1 (alive_and_exploding_apart 8 0 (shot_then_two_spawns ++ [idle])
                  after_the_hit H)).
Defined.

(** C2 at the frame after the hit, with 8 meteoroid images. *)
Lemma exploding_meteoroids_advance_witness :
  2 <= 8 /\
  play 8 0 (shot_then_two_spawns ++ [idle]) = Running after_the_hit /\
  play_frame 8 after_the_hit idle = Running after_the_hit_next /\
  exists g2,
    frame_inputs after_the_hit idle = Some g2 /\
    after_the_hit_next = advance 8 (before_advance g2).
Proof.
  assert (H0 : 2 <= 8) by lia.
  assert (H1 : play 8 0 (shot_then_two_spawns ++ [idle]) = Running after_the_hit)
    by (vm_compute; reflexivity).
  assert (H2 : play_frame 8 after_the_hit idle = Running after_the_hit_next)
    by (vm_compute; reflexivity).
  split; [exact H0|]. split; [exact H1|]. split; [exact H2|].
  destruct (exploding_meteoroids_advance 8 0 (shot_then_two_spawns ++ [idle])
              after_the_hit idle after_the_hit_next H0 H1 H2)
    as (g2 & Hg2 & Hadv & _).
  exists g2. split; assumption.
Defined.

(** ** The direction keys (lines 822-856) *)

Lemma handle_keys_flags (g : Game) (i : Input) :
  (left (handle_keys g i), right (handle_keys g i),
   up (handle_keys g i), down (handle_keys g i)) =
  if K_s i then (false, false, false, true)
  else if K_w i then (false, false, true, false)
  else if K_d i then (false, true, false, false)
  else if K_a i then (true, false, false, false)
  else (left g, right g, up g, down g).
Proof.
  unfold handle_keys, press_a, press_d, press_w, press_s.
  destruct (K_a i), (K_d i), (K_w i), (K_s i);
    repeat match goal with
           | |- context [if ?a <=? ?b then _ else _] => destruct (a <=? b)
           end; reflexivity.
Qed.

Ltac press_position :=
  intros [? ? ? ? ? ? ? ? ? ? [px py pw ph] ? ? ? ?] [|];
  cbv [press_a press_d press_w press_s move_x move_y andb
       player set_flags set_player Rect.x Rect.y Rect.w Rect.h Rect.set_x Rect.set_y];
  repeat match goal with
         | |- context [if ?a <=? ?b then _ else _] => destruct (a <=? b)
         end; split; reflexivity.

Lemma press_a_position (g : Game) (k : bool) :
  Rect.x (player (if k then press_a g else g)) = move_x k false (Rect.x (player g)) /\
  Rect.y (player (if k then press_a g else g)) = Rect.y (player g).
Proof. revert g k. press_position. Qed.

Lemma press_d_position (g : Game) (k : bool) :
  Rect.x (player (if k then press_d g else g)) = move_x false k (Rect.x (player g)) /\
  Rect.y (player (if k then press_d g else g)) = Rect.y (player g).
Proof. revert g k. press_position. Qed.

Lemma press_w_position (g : Game) (k : bool) :
  Rect.x (player (if k then press_w g else g)) = Rect.x (player g) /\
  Rect.y (player (if k then press_w g else g)) = move_y k false (Rect.y (player g)).
Proof. revert g k. press_position. Qed.

Lemma press_s_position (g : Game) (k : bool) :
  Rect.x (player (if k then press_s g else g)) = Rect.x (player g) /\
  Rect.y (player (if k then press_s g else g)) = move_y false k (Rect.y (player g)).
Proof. revert g k. press_position. Qed.

Lemma handle_keys_position (g : Game) (i : Input) :
  Rect.x (player (handle_keys g i)) = move_x (K_a i) (K_d i) (Rect.x (player g)) /\
  Rect.y (player (handle_keys g i)) = move_y (K_w i) (K_s i) (Rect.y (player g)).
Proof.
  unfold handle_keys.
  set (g1 := if K_a i then press_a g else g).
  set (g2 := if K_d i then press_d g1 else g1).
  set (g3 := if K_w i then press_w g2 else g2).
  destruct (press_s_position g3 (K_s i)) as [-> ->].
  destruct (press_w_position g2 (K_w i)) as [Xw Yw]. fold g3 in Xw, Yw. rewrite Xw, Yw.
  destruct (press_d_position g1 (K_d i)) as [Xd Yd]. fold g2 in Xd, Yd. rewrite Xd, Yd.
  destruct (press_a_position g (K_a i)) as [Xa Ya]. fold g1 in Xa, Ya. rewrite Xa, Ya.
  unfold move_x, move_y. destruct (K_a i), (K_d i), (K_w i), (K_s i); split; reflexivity.
Qed.

Lemma frame_inputs_keys (g : Game) (i : Input) (g2 : Game) :
  frame_inputs g i = Some g2 ->
  (left g2, right g2, up g2, down g2) = last_key_flags i /\
  Rect.x (player g2) = move_x (K_a i) (K_d i) (Rect.x (player g)) /\
  Rect.y (player g2) = move_y (K_w i) (K_s i) (Rect.y (player g)).
Proof.
  unfold frame_inputs.
  destruct (handle_events (begin_frame g) (events i)) as [g1|] eqn:E; [|discriminate].
  intro H. injection H as <-.
  apply handle_events_static in E. destruct E as (_ & Ep & _ & _ & _ & Ef).
  cbn [begin_frame player left right up down set_score set_flags] in Ep, Ef.
  destruct (handle_keys_position g1 i) as [Hx Hy]. rewrite Ep in Hx, Hy.
  pose proof (handle_keys_flags g1 i) as Hf.
  injection Ef as E1 E2 E3 E4. rewrite E1, E2, E3, E4 in Hf.
  unfold handle_space.
  destruct (K_SPACE i); [destruct (500 <? _)|];
    cbn [left right up down player set_bullets set_previous_time];
    (split; [exact Hf | split; assumption]).
Qed.

(** C4, as the claim words it, fails: from the initial state a frame with
    A and W held takes the player from (100, 360) to (97, 357). *)
Lemma left_and_up_move_diagonally :
  play_frame 8 (initial 0) (keys_only true false true false false 0)
  = Running (mkGame 1 0 1 false false true false (inject_Z 4) 1500 0
               (Rect.mk 97 357 118 75) [] [] [] 0) /\
  ~ no_diagonal_move (initial 0) (keys_only true false true false false 0).
Proof.
  split; [vm_compute; reflexivity|].
  unfold no_diagonal_move. vm_compute. intros [H|H]; discriminate.
Qed.

(** C4, as amended. In every frame after which the run goes on, at most
    one direction flag is set, that of the last held key in the order A,
    D, W, S; the position, though, is moved for every held key whose bound
    test passes, A then D on x and W then S on y, so that keys of the two
    axes held together move the player diagonally. *)
Theorem one_flag_but_every_key_moves (frames : Z) (g : Game) (i : Input) (g' : Game) :
  play_frame frames g i = Running g' ->
  (left g', right g', up g', down g') = last_key_flags i /\
  Rect.x (player g') = move_x (K_a i) (K_d i) (Rect.x (player g)) /\
  Rect.y (player g') = move_y (K_w i) (K_s i) (Rect.y (player g)) /\
  (K_a i = true -> K_d i = false -> K_w i = true -> K_s i = false ->
   0 <= Rect.x (player g) -> 0 <= Rect.y (player g) ->
   Rect.x (player g') = Rect.x (player g) - player_speed /\
   Rect.y (player g') = Rect.y (player g) - player_speed).
Proof.
  intro H. apply play_frame_running in H. destruct H as (g2 & H2 & _ & ->).
  apply frame_inputs_keys in H2. destruct H2 as (Hf & Hx & Hy).
  destruct (frame_world_static frames (before_collisions g2)) as (Ep & _).
  destruct (before_collisions_static g2) as (_ & Ep' & _).
  assert (F : (left (frame_world frames (before_collisions g2)),
               right (frame_world frames (before_collisions g2)),
               up (frame_world frames (before_collisions g2)),
               down (frame_world frames (before_collisions g2)))
              = (left g2, right g2, up g2, down g2)).
  { unfold frame_world, advance, prune, resolve_hits.
    destruct (hit_of (before_collisions g2)) as [hit bullets].
    cbn [left right up down set_bullets set_meteoroids].
    assert (X : forall ks s, (left (fold_left explode ks s), right (fold_left explode ks s),
                              up (fold_left explode ks s), down (fold_left explode ks s))
                             = (left s, right s, up s, down s)).
    { clear. induction ks as [|k ks IH]; intro s; [reflexivity|].
      cbn [fold_left]. rewrite IH. reflexivity. }
    rewrite X. unfold before_collisions. rewrite player_collision_eq.
    unfold update_player. destruct (Player.update _ _ _ _). reflexivity. }
  rewrite F, Ep, Ep'. split; [exact Hf|]. split; [exact Hx|]. split; [exact Hy|].
  intros Ka Kd Kw Ks Px Py. rewrite Hx, Hy, Ka, Kd, Kw, Ks.
  unfold move_x, move_y. cbn [andb].
  destruct (Z.leb_spec 0 (Rect.x (player g))); [|lia].
  destruct (Z.leb_spec 0 (Rect.y (player g))); [|lia].
  split; reflexivity.
Qed.

(** C4, as amended, at the first frame of a run with A and W held. *)
Lemma one_flag_but_every_key_moves_witness :
  play_frame 8 (initial 0) (keys_only true false true false false 0)
  = Running (mkGame 1 0 1 false false true false (inject_Z 4) 1500 0
               (Rect.mk 97 357 118 75) [] [] [] 0) /\
  (97 = Rect.x (player (initial 0)) - player_speed /\
   357 = Rect.y (player (initial 0)) - player_speed).
Proof.
  assert (H : play_frame 8 (initial 0) (keys_only true false true false false 0)
              = Running (mkGame 1 0 1 false false true false (inject_Z 4) 1500 0
                           (Rect.mk 97 357 118 75) [] [] [] 0))
    by (vm_compute; reflexivity).
  split; [exact H|].
  apply (proj2 (proj2 (proj2 (one_flag_but_every_key_moves 8 _ _ _ H))));
    try reflexivity; vm_compute; discriminate.
Defined.

(** C3 fails on the code. Held for 34 frames from the start of a run, the
    A key takes the player to x = -2, left of the window; the D key stops
    the player at x = 1231, past [windowwidth - 50]; and a player at x = 0
    who presses A moves to x = -3. *)
Theorem player_leaves_window :
  (exists g,
     play 8 0 (repeat (keys_only true false false false false 0) 34) = Running g /\
     Rect.x (player g) = -2 /\ ~ in_window (player g)) /\
  (exists g,
     play 8 0 (repeat (keys_only false true false false false 0) 500) = Running g /\
     Rect.x (player g) = 1231 /\ ~ in_window (player g)) /\
  Rect.x (player (handle_keys (set_player (initial 0) (Rect.mk 0 360 118 75))
                    (keys_only true false false false false 0))) = -3.
Proof.
  split; [|split].
  - eexists. split; [vm_compute; reflexivity|]. split; [reflexivity|].
    unfold in_window. cbn. lia.
  - eexists. split; [vm_compute; reflexivity|]. split; [reflexivity|].
    unfold in_window. cbn. lia.
  - reflexivity.
Qed.

(** ** The shoot key (lines 858-863) *)




(** * Further properties of the frame loop *)

(** ** How a frame ends (lines 804-876) *)

Lemma handle_events_exit (es : list Event) (g : Game) :
  handle_events g es = None <-> In QUIT es.
Proof.
  revert g. induction es as [|e es IH]; intro g; cbn [handle_events In].
  - split; [discriminate|contradiction].
  - destruct e; cbn [handle_event]; rewrite ?IH;
      split; try (intros [H|H]; [discriminate H|exact H]); auto.
Qed.

Lemma frame_inputs_exit (g : Game) (i : Input) :
  frame_inputs g i = None <-> In QUIT (events i).
Proof.
  unfold frame_inputs. rewrite <- (handle_events_exit (events i) (begin_frame g)).
  destruct (handle_events (begin_frame g) (events i)); split; congruence.
Qed.

(** X1. A frame ends the process exactly when its queue holds a QUIT
    event, whatever the keys. Otherwise, with ESCAPE held or with the
    player touching an alive meteoroid, the run is over, and the score
    handed to the game-over screen is always the score the frame began
    with plus one: what bullets hit in that frame is never counted. With
    neither, the loop goes on. *)
Theorem frame_outcome (frames : Z) (g : Game) (i : Input) :
  (play_frame frames g i = Exit <-> In QUIT (events i)) /\
  (forall s, play_frame frames g i = GameOver s -> s = score g + 1) /\
  (forall g2, frame_inputs g i = Some g2 ->
     (K_ESCAPE i = true \/
      (exists m, In m (meteoroid_group g2) /\
                 Rect.colliderect (player g2) (Meteoroid.rect m) = true) ->
      play_frame frames g i = GameOver (score g + 1)) /\
     (K_ESCAPE i = false ->
      (forall m, In m (meteoroid_group g2) ->
                 Rect.colliderect (player g2) (Meteoroid.rect m) = false) ->
      play_frame frames g i = Running (frame_world frames (before_collisions g2)))).
Proof.
  assert (C : forall g2, frame_inputs g i = Some g2 ->
            play_frame frames g i =
            if K_ESCAPE i then GameOver (score g + 1)
            else match filter (fun m => Rect.colliderect (player g2) (Meteoroid.rect m))
                         (meteoroid_group g2) with
                 | [] => Running (frame_world frames (before_collisions g2))
                 | _ :: _ => GameOver (score g + 1)
                 end).
  { intros g2 H2. unfold play_frame, before_collisions. rewrite H2.
    rewrite (frame_inputs_score _ _ _ H2).
    destruct (K_ESCAPE i); [reflexivity|].
    rewrite player_collision_eq. unfold update_player.
    destruct (Player.update _ _ _ _) as [mv st].
    cbn [player meteoroid_group set_counters snd].
    destruct (filter _ (meteoroid_group g2)); [reflexivity|].
    cbn [score set_meteoroids set_counters].
    rewrite (frame_inputs_score _ _ _ H2). reflexivity. }
  split; [|split].
  - destruct (frame_inputs g i) as [g2|] eqn:E.
    + split.
      * rewrite (C g2 eq_refl). destruct (K_ESCAPE i); [discriminate|].
        destruct (filter _ _); discriminate.
      * intro H. apply (proj2 (frame_inputs_exit g i)) in H. congruence.
    + split.
      * intros _. apply (proj1 (frame_inputs_exit g i)). exact E.
      * intros _. unfold play_frame. rewrite E. reflexivity.
  - intros s H. destruct (frame_inputs g i) as [g2|] eqn:E.
    + rewrite (C g2 eq_refl) in H.
      destruct (K_ESCAPE i); [congruence|].
      destruct (filter _ _); congruence.
    + unfold play_frame in H. rewrite E in H. discriminate.
  - intros g2 H2. rewrite (C g2 H2). split.
    + intros [-> | (m & Hm & Hc)]; [reflexivity|].
      destruct (K_ESCAPE i); [reflexivity|].
      destruct (filter _ (meteoroid_group g2)) eqn:F; [|reflexivity].
      assert (Hin : In m (filter (fun m => Rect.colliderect (player g2) (Meteoroid.rect m))
                            (meteoroid_group g2)))
        by (apply filter_In; split; assumption).
      rewrite F in Hin. contradiction.
    + intros -> Hno.
      destruct (filter _ (meteoroid_group g2)) as [|m l] eqn:F; [reflexivity|].
      assert (Hin : In m (m :: l)) by (left; reflexivity).
      rewrite <- F in Hin. apply filter_In in Hin. destruct Hin as [Hm Hc].
      rewrite (Hno m Hm) in Hc. discriminate.
Qed.

(** X1 at a frame: ESCAPE held while a bullet is about to hit. *)
Lemma frame_outcome_witness :
  frame_inputs two_meteoroids_one_bullet
    (mkInput [] false false false false false true 0)
    = Some (set_score two_meteoroids_one_bullet 206) /\
  play_frame 8 two_meteoroids_one_bullet
    (mkInput [] false false false false false true 0)
    = GameOver (score two_meteoroids_one_bullet + 1).
Proof.
  assert (H : frame_inputs two_meteoroids_one_bullet
                (mkInput [] false false false false false true 0)
              = Some (set_score two_meteoroids_one_bullet 206))
    by (vm_compute; reflexivity).
  split; [exact H|].
  exact (proj1 (proj2 (proj2 (frame_outcome 8 two_meteoroids_one_bullet
                                (mkInput [] false false false false false true 0)))
                 _ H) (or_introl eq_refl)).
Defined.

(** ** The bullets (lines 858-863, 878, 885 and 890) *)

Lemma resolve_hits_bullets (g : Game) :
  bullet_group (resolve_hits g) =
  filter (untouched (meteoroid_group g)) (bullet_group g).
Proof.
  pose proof (groupcollide_bullets (meteoroid_group g) (bullet_group g)) as Hb.
  unfold resolve_hits, hit_of in *.
  destruct (Sprite.groupcollide _ _ _ _) as [hit bullets]. cbn [snd] in Hb.
  destruct (fold_explode_static (map fst hit) (set_bullets g bullets))
    as (_ & -> & _). cbn [bullet_group set_bullets]. exact Hb.
Qed.

Lemma frame_world_bullets (frames : Z) (g : Game) :
  bullet_group (frame_world frames g) =
  map (Bullet.update 5)
    (filter (bullet_survives (meteoroid_group g)) (bullet_group g)).
Proof.
  unfold frame_world, advance, prune.
  cbn [bullet_group set_bullets set_meteoroids].
  rewrite spritecollide_filter. cbn [snd].
  rewrite resolve_hits_bullets, filter_twice. reflexivity.
Qed.

Lemma frame_inputs_bullets (g : Game) (i : Input) (g2 : Game) :
  frame_inputs g i = Some g2 ->
  bullet_group g2 =
  if K_SPACE i && (500 <? get_ticks i - previous_time g)
  then bullet_group g ++ [Player.shoot (player g2)]
  else bullet_group g.
Proof.
  unfold frame_inputs.
  destruct (handle_events (begin_frame g) (events i)) as [g1|] eqn:E; [|discriminate].
  intro H. injection H as <-.
  apply handle_events_static in E. destruct E as (_ & _ & Eb & _ & Et & _).
  cbn [begin_frame bullet_group previous_time set_score set_flags] in Eb, Et.
  destruct (handle_keys_static g1 i) as (_ & Kb & _ & _ & _ & _ & Kt & _).
  unfold handle_space. rewrite Kt, Et.
  destruct (K_SPACE i); cbn [andb]; [|congruence].
  destruct (500 <? get_ticks i - previous_time g);
    cbn [bullet_group player set_bullets set_previous_time]; congruence.
Qed.

Lemma frame_inputs_near_window (g : Game) (i : Input) (g2 : Game) :
  frame_inputs g i = Some g2 -> near_window (player g) -> near_window (player g2).
Proof.
  unfold frame_inputs.
  destruct (handle_events (begin_frame g) (events i)) as [g1|] eqn:E; [|discriminate].
  intros H Hg. injection H as <-.
  destruct (handle_space_static (handle_keys g1 i) i) as (_ & -> & _).
  apply handle_keys_near_window.
  apply handle_events_static in E. destruct E as (_ & -> & _). exact Hg.
Qed.

(** The right border takes every bullet of the usual size from x = 1362. *)
Lemma right_border_catches (b : Bullet.t) :
  Rect.x (Bullet.rect b) <= 1373 -> 27 <= Rect.y (Bullet.rect b) <= 703 ->
  Rect.w (Bullet.rect b) = 15 -> Rect.h (Bullet.rect b) = 12 ->
  Rect.colliderect window_right (Bullet.rect b) = false ->
  Rect.x (Bullet.rect b) <= 1361.
Proof.
  destruct b as [[bx by_ bw bh]]. cbn [Bullet.rect Rect.x Rect.y Rect.w Rect.h].
  intros Hx Hy -> -> Hc.
  destruct (Z_le_gt_dec bx 1361) as [Hle|Hgt]; [exact Hle|exfalso].
  unfold Rect.colliderect, window_right, Window.init, windowwidth, windowheight in Hc.
  cbn [Rect.x Rect.y Rect.w Rect.h Z.eqb orb] in Hc.
  rewrite !andb_false_iff, !Z.ltb_ge in Hc. lia.
Qed.

Lemma bullets_play_frame (frames : Z) (g : Game) (i : Input) (g' : Game) :
  near_window (player g) ->
  (forall b, In b (bullet_group g) -> bullet_in_flight b) ->
  play_frame frames g i = Running g' ->
  forall b, In b (bullet_group g') -> bullet_in_flight b.
Proof.
  intros Hp Hb H b' Hb'. apply play_frame_running in H.
  destruct H as (g2 & H2 & _ & ->).
  rewrite frame_world_bullets in Hb'. apply in_map_iff in Hb'.
  destruct Hb' as (b & <- & Hin). apply filter_In in Hin. destruct Hin as [Hin Hs].
  destruct (before_collisions_static g2) as (_ & _ & _ & _ & _ & _ & Eb).
  rewrite Eb, (frame_inputs_bullets _ _ _ H2) in Hin.
  unfold bullet_survives in Hs. apply andb_prop in Hs. destruct Hs as [_ Hs].
  apply negb_true_iff in Hs.
  assert (R : 137 <= Rect.x (Bullet.rect b) <= 1373 /\
              27 <= Rect.y (Bullet.rect b) <= 703 /\
              Rect.w (Bullet.rect b) = 15 /\ Rect.h (Bullet.rect b) = 12).
  { assert (Old : In b (bullet_group g) -> 137 <= Rect.x (Bullet.rect b) <= 1373 /\
              27 <= Rect.y (Bullet.rect b) <= 703 /\
              Rect.w (Bullet.rect b) = 15 /\ Rect.h (Bullet.rect b) = 12).
    { intro Ho. destruct (Hb b Ho) as (Hx & Hy & Hw & Hh). repeat split; lia. }
    destruct (K_SPACE i && (500 <? get_ticks i - previous_time g)); [|auto].
    apply in_app_iff in Hin. destruct Hin as [Ho|[<-|[]]]; [auto|].
    pose proof (frame_inputs_near_window _ _ _ H2 Hp) as N.
    unfold near_window, player_speed, windowwidth, windowheight in N.
    unfold Player.shoot, Bullet.init. cbn [Bullet.rect Rect.x Rect.y Rect.w Rect.h].
    repeat split; lia. }
  destruct R as (Hx & Hy & Hw & Hh).
  pose proof (right_border_catches b (proj2 Hx) Hy Hw Hh Hs) as Hr.
  unfold bullet_in_flight, Bullet.update.
  cbn [Bullet.rect Rect.set_x Rect.x Rect.y Rect.w Rect.h].
  repeat split; try assumption; lia.
Qed.

(** X2. In every state a run reaches, every bullet of the group lies
    between the player's front and the right border sprite (142 <= x <=
    1366, 27 <= y <= 703) and has its size of 15 x 12: no bullet ever
    starts right of the border at x = 1376, so the group cannot fill up
    with bullets that left the window. *)
Theorem bullets_stay_in_flight (frames t0 : Z) (inputs : list Input) (g : Game) :
  play frames t0 inputs = Running g ->
  forall b, In b (bullet_group g) ->
    bullet_in_flight b /\
    Rect.x (Bullet.rect b) < Rect.x window_right.
Proof.
  intros H b Hb.
  assert (I : near_window (player g) /\
              (forall b, In b (bullet_group g) -> bullet_in_flight b)).
  { eapply (run_invariant frames
              (fun g => near_window (player g) /\
                        (forall b, In b (bullet_group g) -> bullet_in_flight b)));
      [|idtac|exact H].
    - intros g0 i g' [N B] Hf. split.
      + eapply play_frame_near_window; eassumption.
      + eapply bullets_play_frame; eassumption.
    - split; [cbv; repeat split; discriminate | intros ? []]. }
  destruct I as [_ B]. specialize (B b Hb). split; [exact B|].
  destruct B as (Hx & _). change (Rect.x window_right) with 1376. lia.
Qed.

(** X2 at the run of the shared bullet. *)
Lemma bullets_stay_in_flight_witness :
  play 8 0 shot_then_two_spawns = Running two_meteoroids_one_bullet /\
  bullet_in_flight the_bullet.
Proof.
  assert (H : play 8 0 shot_then_two_spawns = Running two_meteoroids_one_bullet)
    by (vm_compute; reflexivity).
  split; [exact H|].
  exact (proj1 (bullets_stay_in_flight 8 0 shot_then_two_spawns
                  two_meteoroids_one_bullet H the_bullet (or_introl eq_refl))).
Defined.

(** X3. A frame after which the run goes on adds at most one bullet, the
    one of a shot, keeps exactly the bullets that neither an alive
    meteoroid nor the right border overlaps, and moves each bullet it keeps
    5 pixels to the right at the same height. *)
Theorem bullets_of_a_frame (frames : Z) (g : Game) (i : Input) (g' : Game) :
  play_frame frames g i = Running g' ->
  exists g2,
    frame_inputs g i = Some g2 /\
    bullet_group g2 =
      (if K_SPACE i && (500 <? get_ticks i - previous_time g)
       then bullet_group g ++ [Player.shoot (player g2)]
       else bullet_group g) /\
    bullet_group g' =
      map (Bullet.update 5)
        (filter (bullet_survives (meteoroid_group (before_collisions g2)))
           (bullet_group g2)) /\
    (length (bullet_group g') <= length (bullet_group g) + 1)%nat /\
    (forall b', In b' (bullet_group g') ->
       exists b, In b (bullet_group g2) /\
         Rect.x (Bullet.rect b') = Rect.x (Bullet.rect b) + 5 /\
         Rect.y (Bullet.rect b') = Rect.y (Bullet.rect b)).
Proof.
  intro H. apply play_frame_running in H. destruct H as (g2 & H2 & _ & ->).
  exists g2. split; [exact H2|].
  pose proof (frame_inputs_bullets _ _ _ H2) as E2. split; [exact E2|].
  destruct (before_collisions_static g2) as (_ & _ & _ & _ & _ & _ & Eb).
  assert (E : bullet_group (frame_world frames (before_collisions g2)) =
              map (Bullet.update 5)
                (filter (bullet_survives (meteoroid_group (before_collisions g2)))
                   (bullet_group g2)))
    by (rewrite frame_world_bullets, Eb; reflexivity).
  split; [exact E|]. split.
  - rewrite E, length_map.
    eapply Nat.le_trans; [apply filter_length_le|].
    rewrite E2. destruct (K_SPACE i && _); [|lia].
    rewrite length_app. cbn. lia.
  - intros b' Hb'. rewrite E in Hb'. apply in_map_iff in Hb'.
    destruct Hb' as (b & <- & Hin). apply filter_In in Hin.
    exists b. split; [tauto|]. split; reflexivity.
Qed.

(** X3 at the frame of the shared bullet: the bullet is taken out. *)
Lemma bullets_of_a_frame_witness :
  play_frame 8 two_meteoroids_one_bullet idle = Running after_the_hit /\
  (length (bullet_group after_the_hit)
   <= length (bullet_group two_meteoroids_one_bullet) + 1)%nat.
Proof.
  assert (H : play_frame 8 two_meteoroids_one_bullet idle = Running after_the_hit)
    by (vm_compute; reflexivity).
  split; [exact H|].
  destruct (bullets_of_a_frame 8 two_meteoroids_one_bullet idle after_the_hit H)
    as (g2 & _ & _ & _ & L & _).
  exact L.
Defined.

(** ** The explosion runs out (lines 667-670) *)

Lemma frame_inputs_alive_idents (g : Game) (i : Input) (g2 : Game) :
  frame_inputs g i = Some g2 ->
  (next_ident g <= next_ident g2)%nat /\
  forall n, In n (idents (meteoroid_group g2)) ->
            In n (idents (meteoroid_group g)) \/ (next_ident g <= n)%nat.
Proof.
  unfold frame_inputs.
  destruct (handle_events (begin_frame g) (events i)) as [g1|] eqn:E; [|discriminate].
  intro H. injection H as <-.
  apply handle_events_alive_idents in E.
  destruct (handle_space_static (handle_keys g1 i) i)
    as (_ & _ & -> & _ & _ & _ & ->).
  destruct (handle_keys_static g1 i) as (_ & _ & -> & _ & _ & _ & _ & ->).
  exact E.
Qed.

(** Lines 870-890 bring into the exploding group only what was in it or
    alive. *)
Lemma frame_world_exploded_idents (frames : Z) (g2 : Game) (n : nat) :
  well_formed g2 ->
  In n (idents (meteoroid_group_exploded (frame_world frames (before_collisions g2)))) ->
  In n (idents (meteoroid_group_exploded g2)) \/ In n (idents (meteoroid_group g2)).
Proof.
  intros W H. change (frame_world frames (before_collisions g2))
    with (advance frames (before_advance g2)) in H.
  cbn [advance meteoroid_group_exploded set_bullets set_meteoroids] in H.
  rewrite update_meteoroids_idents in H. apply idents_filter_In in H.
  rewrite (before_advance_exploded g2 W) in H.
  unfold idents in H. rewrite map_app, map_map in H. apply in_app_iff in H.
  destruct H as [H|H]; [left; exact H|right].
  apply in_map_iff in H. destruct H as (k & <- & Hk).
  apply groupcollide_keys_in in Hk. rewrite before_collisions_alive in Hk.
  apply filter_In in Hk. cbn [bump Meteoroid.set_state Meteoroid.ident].
  apply in_map. tauto.
Qed.

Lemma gone_play_frame (frames : Z) (n : nat) (g : Game) (i : Input) (g' : Game) :
  well_formed g -> gone n g -> play_frame frames g i = Running g' -> gone n g'.
Proof.
  intros W (Hlt & Ha & He) H.
  destruct (retired_play_frame frames n g i g' (conj Hlt Ha) H) as [Hlt' Ha'].
  split; [exact Hlt'|]. split; [exact Ha'|].
  apply play_frame_running in H. destruct H as (g2 & H2 & _ & ->).
  intro Hin. apply frame_world_exploded_idents in Hin;
    [|eapply wf_frame_inputs; eassumption].
  destruct (frame_inputs_alive_idents _ _ _ H2) as [_ Hal].
  rewrite (frame_inputs_exploded _ _ _ H2) in Hin.
  destruct Hin as [Hin|Hin]; [contradiction|].
  destruct (Hal n Hin) as [Hb|Hb]; [contradiction|lia].
Qed.

Lemma gone_run (frames : Z) (n : nat) (inputs : list Input) (g g' : Game) :
  well_formed g -> gone n g -> run frames g inputs = Running g' -> gone n g'.
Proof.
  intros W G H.
  assert (I : well_formed g' /\ gone n g'); [|tauto].
  eapply (run_invariant frames (fun s => well_formed s /\ gone n s));
    [|split; eassumption|exact H].
  intros s j s' [Ws Gs] Hj. split.
  - eapply wf_play_frame; eassumption.
  - eapply gone_play_frame; eassumption.
Qed.

(** One frame, for one member of the exploding group. *)
Lemma exploding_step (frames : Z) (g : Game) (i : Input) (g' : Game) (m : Meteoroid.t) :
  well_formed g -> In m (meteoroid_group_exploded g) ->
  play_frame frames g i = Running g' ->
  (Meteoroid.state m = frames - 1 -> gone (Meteoroid.ident m) g') /\
  (Meteoroid.state m <> frames - 1 ->
     exists m', In m' (meteoroid_group_exploded g') /\
                Meteoroid.ident m' = Meteoroid.ident m /\
                Meteoroid.state m' = Meteoroid.state m + 1).
Proof.
  intros W Hm H. apply play_frame_running in H. destruct H as (g2 & H2 & _ & ->).
  pose proof (wf_frame_inputs _ _ _ H2 W) as W2.
  assert (Ww : well_formed (before_advance g2)).
  { unfold before_advance. apply wf_prune, wf_resolve_hits, wf_before_collisions.
    exact W2. }
  assert (Hw : In m (meteoroid_group_exploded (before_advance g2))).
  { rewrite (before_advance_exploded g2 W2). apply in_app_iff. left.
    rewrite (frame_inputs_exploded _ _ _ H2). exact Hm. }
  destruct (advance_exploding frames _ m Ww Hw) as (A1 & A2 & [A3 A4]).
  split; [|exact A2].
  intro Hs. split; [exact A3|]. split; [exact A4|]. apply A1. exact Hs.
Qed.

Lemma explosion_runs_out (frames : Z) (inputs : list Input) :
  forall (g : Game) (m : Meteoroid.t) (g' : Game),
  well_formed g -> In m (meteoroid_group_exploded g) ->
  Meteoroid.state m <= frames - 1 ->
  run frames g inputs = Running g' ->
  (Z.of_nat (length inputs) < frames - Meteoroid.state m ->
     exists m', In m' (meteoroid_group_exploded g') /\
                Meteoroid.ident m' = Meteoroid.ident m /\
                Meteoroid.state m' = Meteoroid.state m + Z.of_nat (length inputs)) /\
  (frames - Meteoroid.state m <= Z.of_nat (length inputs) ->
     gone (Meteoroid.ident m) g').
Proof.
  induction inputs as [|i rest IH]; intros g m g' W Hm Hs Hrun.
  - cbn [run] in Hrun. injection Hrun as <-. cbn [length]. split.
    + intros _. exists m. repeat split; [exact Hm | lia].
    + intro Hle. cbn in Hle. lia.
  - cbn [run] in Hrun.
    destruct (play_frame frames g i) as [g1| |] eqn:E; try discriminate.
    pose proof (wf_play_frame _ _ _ _ W E) as W1.
    destruct (exploding_step frames g i g1 m W Hm E) as [Last Next].
    cbn [length]. rewrite Nat2Z.inj_succ.
    destruct (Z.eq_dec (Meteoroid.state m) (frames - 1)) as [e|n].
    + split; [intro; lia|]. intros _.
      eapply gone_run; [exact W1| apply Last; exact e | exact Hrun].
    + destruct (Next n) as (m' & Hm' & Ei & Es).
      destruct (IH g1 m' g' W1 Hm' ltac:(lia) Hrun) as [Short Long].
      rewrite Ei, Es in *. split.
      * intro Hlt. destruct Short as (m'' & H1 & H2 & H3); [lia|].
        exists m''. repeat split; [exact H1 | exact H2 | lia].
      * intro Hle. apply Long. lia.
Qed.

(** X4. An explosion ends. With at least one explosion image, a meteoroid
    that is in the exploding group with explosion state s (in a state a run
    reaches) is still there, with state s + k, after k further frames as
    long as k < frames - s, and is in neither group after [frames - s]
    frames or more, for good. *)
Theorem explosion_ends (frames t0 : Z) (before : list Input) (g : Game)
    (m : Meteoroid.t) (inputs : list Input) (g' : Game) :
  2 <= frames ->
  play frames t0 before = Running g ->
  In m (meteoroid_group_exploded g) ->
  run frames g inputs = Running g' ->
  (Z.of_nat (length inputs) < frames - Meteoroid.state m ->
     exists m', In m' (meteoroid_group_exploded g') /\
                Meteoroid.ident m' = Meteoroid.ident m /\
                Meteoroid.state m' = Meteoroid.state m + Z.of_nat (length inputs)) /\
  (frames - Meteoroid.state m <= Z.of_nat (length inputs) ->
     ~ In (Meteoroid.ident m) (idents (meteoroid_group g')) /\
     ~ In (Meteoroid.ident m) (idents (meteoroid_group_exploded g'))).
Proof.
  intros Hf Hg Hm Hrun.
  destruct (frames_bounded_play frames t0 before g Hf Hg) as [W B].
  destruct (explosion_runs_out frames inputs g m g' W Hm (B m Hm) Hrun)
    as [Short Long].
  split; [exact Short|]. intro Hle. exact (proj2 (Long Hle)).
Qed.

(** X4 with 8 images: the meteoroid hit in the run of the shared bullet is
    gone six quiet frames later. *)
Lemma explosion_ends_witness :
  2 <= 8 /\
  play 8 0 (shot_then_two_spawns ++ [idle]) = Running after_the_hit /\
  (exists g', run 8 after_the_hit (repeat idle 6) = Running g' /\
     ~ In 0%nat (idents (meteoroid_group_exploded g'))).
Proof.
  assert (H0 : 2 <= 8) by lia.
  assert (H1 : play 8 0 (shot_then_two_spawns ++ [idle]) = Running after_the_hit)
    by (vm_compute; reflexivity).
  split; [exact H0|]. split; [exact H1|].
  eexists. split; [vm_compute; reflexivity|].
  refine (proj2 (proj2 (explosion_ends 8 0 (shot_then_two_spawns ++ [idle])
                    after_the_hit (Meteoroid.mk 0 (Rect.mk 1268 385 38 33) 2)
                    (repeat idle 6) _ H0 H1 (or_introl eq_refl) _) _)).
  - vm_compute. reflexivity.
  - vm_compute. discriminate.
Defined.

(** ** The images that are drawn (lines 560-572 and 667-673) *)

(** X5. With at least one explosion image, [Meteoroid.update] always draws
    an image that exists: in every frame of a run, an alive meteoroid is
    not killed by its update and is drawn with image 0, and an exploding
    meteoroid is drawn with an image between 1 and the last one. With three
    images or more, image 1 is never drawn: the frame that sets the state
    to 1 moves it on to 2 before it draws. *)
Theorem meteoroid_image_exists (frames t0 : Z) (inputs : list Input) (g : Game)
    (i : Input) (g2 : Game) :
  2 <= frames ->
  play frames t0 inputs = Running g ->
  frame_inputs g i = Some g2 ->
  (forall m, In m (meteoroid_group (before_advance g2)) ->
     fst (Meteoroid.update frames (meteoroid_speed (before_advance g2)) m) = false /\
     drawn_image frames (meteoroid_speed (before_advance g2)) m = 0) /\
  (forall m, In m (meteoroid_group_exploded (before_advance g2)) ->
     1 <= drawn_image frames (meteoroid_speed (before_advance g2)) m <= frames - 1 /\
     (3 <= frames ->
      2 <= drawn_image frames (meteoroid_speed (before_advance g2)) m)).
Proof.
  intros Hf Hrun H2.
  destruct (frames_bounded_play frames t0 inputs g Hf Hrun) as [W B].
  destruct (frames_bounded_before_advance frames _ _ _ Hf W B H2) as [Ww Bw].
  set (w := before_advance g2) in *. unfold drawn_image. split.
  - intros m Hm. pose proof (wf_alive_state _ Ww m Hm) as S0.
    destruct (update_cases frames (meteoroid_speed w) m) as (_ & _ & _ & C3).
    destruct C3 as [C Cs]; [lia|lia|]. rewrite C at 1. cbn [fst]. split; [reflexivity|lia].
  - intros m Hm. pose proof (wf_exploded_state _ Ww m Hm) as L.
    pose proof (Bw m Hm) as U.
    destruct (update_cases frames (meteoroid_speed w) m) as (_ & C1 & C2 & _).
    destruct (Z.eq_dec (Meteoroid.state m + 1) frames) as [e|n].
    + destruct (C1 e) as [_ Cs]. rewrite Cs. split; lia.
    + destruct (C2 n) as [_ Cs]; [lia|]. rewrite Cs. split; lia.
Qed.

(** X5 at the frame of the shared bullet, with 8 images. *)
Lemma meteoroid_image_exists_witness :
  2 <= 8 /\
  play 8 0 shot_then_two_spawns = Running two_meteoroids_one_bullet /\
  frame_inputs two_meteoroids_one_bullet idle
    = Some (set_score two_meteoroids_one_bullet 206) /\
  2 <= drawn_image 8
         (meteoroid_speed (before_advance (set_score two_meteoroids_one_bullet 206)))
         (bump meteoroid_A).
Proof.
  assert (H0 : 2 <= 8) by lia.
  assert (H1 : play 8 0 shot_then_two_spawns = Running two_meteoroids_one_bullet)
    by (vm_compute; reflexivity).
  assert (H2 : frame_inputs two_meteoroids_one_bullet idle
               = Some (set_score two_meteoroids_one_bullet 206))
    by (vm_compute; reflexivity).
  split; [exact H0|]. split; [exact H1|]. split; [exact H2|].
  refine (proj2 (proj2 (meteoroid_image_exists 8 0 shot_then_two_spawns
                          two_meteoroids_one_bullet idle
                          (set_score two_meteoroids_one_bullet 206) H0 H1 H2)
                   (bump meteoroid_A) _) _).
  - vm_compute. left. reflexivity.
  - lia.
Defined.

Lemma fold_explode_counters (ks : list Meteoroid.t) (g : Game) :
  move (fold_left explode ks g) = move g /\
  stand (fold_left explode ks g) = stand g.
Proof.
  revert g. induction ks as [|k ks IH]; intro g; [cbn; tauto|].
  cbn [fold_left]. destruct (IH (explode g k)) as [-> ->]. cbn. tauto.
Qed.

Lemma handle_events_counters (es : list Event) (g g1 : Game) :
  handle_events g es = Some g1 -> move g1 = move g /\ stand g1 = stand g.
Proof.
  revert g. induction es as [|e es IH]; intros g H; cbn [handle_events] in H.
  - injection H as <-. tauto.
  - destruct e; cbn [handle_event] in H; try discriminate;
      apply IH in H; cbn in H; exact H.
Qed.

(** The exhaust counters of a frame: only [Player.update] touches them. *)
Lemma play_frame_counters (frames : Z) (g : Game) (i : Input) (g' : Game) :
  play_frame frames g i = Running g' ->
  exists l r, (move g', stand g') = Player.update l r (move g) (stand g).
Proof.
  intro H. apply play_frame_parts in H. destruct H as (g1 & He & ->).
  apply handle_events_counters in He. cbn in He. destruct He as [Em Es].
  set (g2 := handle_space (handle_keys g1 i) i).
  assert (E2 : move g2 = move g /\ stand g2 = stand g).
  { subst g2. unfold handle_space, handle_keys, press_a, press_d, press_w, press_s.
    destruct (K_a i), (K_d i), (K_w i), (K_s i), (K_SPACE i);
      repeat match goal with
             | |- context [if ?b then _ else _] => destruct b
             end; cbn; tauto. }
  destruct E2 as [E2m E2s].
  exists (left g2), (right g2).
  unfold frame_world, advance, prune, resolve_hits.
  destruct (hit_of (before_collisions g2)) as [hit bullets].
  cbn [move stand set_bullets set_meteoroids].
  destruct (fold_explode_counters (map fst hit)
              (set_bullets (before_collisions g2) bullets)) as [-> ->].
  unfold before_collisions. rewrite player_collision_eq. unfold update_player.
  rewrite E2m, E2s.
  destruct (Player.update (left g2) (right g2) (move g) (stand g)) as [mv st].
  reflexivity.
Qed.

(** X6. In every state a run reaches, the exhaust counters [move] and
    [stand] are between 0 and 3, and the image [Player.update] draws next
    has an index between 0 and 2: three images in each exhaust folder are
    enough, and a fourth one is never shown. *)
Theorem exhaust_image_exists (frames t0 : Z) (inputs : list Input) (g : Game) :
  play frames t0 inputs = Running g ->
  0 <= move g <= 3 /\ 0 <= stand g <= 3 /\
  forall l r, 0 <= exhaust_image l r (move g) (stand g) <= 2.
Proof.
  intro H.
  assert (I : 0 <= move g <= 3 /\ 0 <= stand g <= 3).
  { eapply (run_invariant frames (fun g => 0 <= move g <= 3 /\ 0 <= stand g <= 3));
      [|idtac|exact H].
    - intros g0 i g' [Hm Hs] Hf. apply play_frame_counters in Hf.
      destruct Hf as (l & r & E). unfold Player.update in E.
      destruct (Z.leb_spec 4 (move g0 + 1)), (Z.leb_spec 4 (stand g0 + 1)),
        (l || r); injection E as -> ->; lia.
    - cbn. lia. }
  destruct I as [Hm Hs]. split; [exact Hm|]. split; [exact Hs|].
  intros l r. unfold exhaust_image.
  destruct (Z.leb_spec 4 (move g + 1)), (Z.leb_spec 4 (stand g + 1)), (l || r); lia.
Qed.

(** X6 at a run: 200 frames with A and W held. *)
Lemma exhaust_image_exists_witness :
  exists g,
    play 8 0 (repeat (keys_only true false true false false 0) 200) = Running g /\
    0 <= move g <= 3.
Proof.
  eexists. split; [vm_compute; reflexivity|].
  refine (proj1 (exhaust_image_exists 8 0
                   (repeat (keys_only true false true false false 0) 200) _ _)).
  vm_compute. reflexivity.
Defined.

(** ** Counting meteoroids and points (lines 802, 806 and 878-883) *)

Lemma spawn_appends (g : Game) (y : Z) :
  well_formed g ->
  meteoroid_group (spawn g y) =
  meteoroid_group g ++ [Meteoroid.init (next_ident g) y].
Proof.
  intro W. unfold spawn. cbn [meteoroid_group set_next_ident set_meteoroids].
  apply add_fresh. cbn [Meteoroid.init Meteoroid.ident]. intro Hin.
  assert (next_ident g < next_ident g)%nat
    by (apply (wf_fresh g W); left; exact Hin).
  lia.
Qed.

Lemma handle_events_spawns (es : list Event) (g g1 : Game) :
  well_formed g -> handle_events g es = Some g1 ->
  next_ident g1 = (next_ident g + spawns es)%nat /\
  length (meteoroid_group g1) = (length (meteoroid_group g) + spawns es)%nat.
Proof.
  revert g. induction es as [|e es IH]; intros g W H; cbn [handle_events] in H.
  - injection H as <-. unfold spawns. cbn. lia.
  - destruct e; cbn [handle_event] in H; try discriminate;
      unfold spawns in *; cbn [filter is_spawn length].
    + apply IH in H; [|apply wf_spawn; exact W].
      rewrite (spawn_appends g y W), length_app in H.
      cbn [spawn next_ident set_next_ident set_meteoroids length] in H. lia.
    + apply IH in H; [|revert W; apply wf_same_groups; reflexivity].
      cbn in H. exact H.
    + apply IH in H; [exact H | exact W].
Qed.

Lemma frame_inputs_spawns (g : Game) (i : Input) (g2 : Game) :
  well_formed g -> frame_inputs g i = Some g2 ->
  next_ident g2 = (next_ident g + spawns (events i))%nat /\
  length (meteoroid_group g2)
  = (length (meteoroid_group g) + spawns (events i))%nat.
Proof.
  unfold frame_inputs.
  destruct (handle_events (begin_frame g) (events i)) as [g1|] eqn:E; [|discriminate].
  intros W H. injection H as <-.
  apply handle_events_spawns in E;
    [|revert W; apply wf_same_groups; reflexivity].
  destruct (handle_space_static (handle_keys g1 i) i)
    as (_ & _ & -> & _ & _ & _ & ->).
  destruct (handle_keys_static g1 i) as (_ & _ & -> & _ & _ & _ & _ & ->).
  exact E.
Qed.

Lemma filter_shorter {S : Type} (p : S -> bool) (l : list S) (a : S) :
  In a l -> p a = false -> (length (filter p l) < length l)%nat.
Proof.
  induction l as [|b l IH]; cbn [In filter length]; [contradiction|].
  intros [->|Hin] Hp.
  - rewrite Hp. pose proof (filter_length_le p l). lia.
  - specialize (IH Hin Hp). destruct (p b); cbn [length]; lia.
Qed.

(** Taking the keys of [hit] out of the alive group shortens it by their
    number. *)
Lemma keys_leave_alive (ks : list Meteoroid.t) :
  forall l : list Meteoroid.t,
  NoDup (idents ks) ->
  (forall k, In k ks -> In (Meteoroid.ident k) (idents l)) ->
  (length (filter (fun m => negb (among ks m)) l) + length ks <= length l)%nat.
Proof.
  induction ks as [|k ks IH]; intros l Hnd Hin.
  - cbn [length]. pose proof (filter_length_le (fun m => negb (among [] m)) l). lia.
  - cbn [idents map] in Hnd. inversion Hnd as [|? ? Hk Hks]; subst.
    set (l' := filter (fun m => negb (Nat.eqb (Meteoroid.ident m) (Meteoroid.ident k))) l).
    assert (E : filter (fun m => negb (among (k :: ks) m)) l
                = filter (fun m => negb (among ks m)) l').
    { subst l'. rewrite filter_twice. apply filter_ext. intro m.
      unfold among. cbn [existsb]. rewrite negb_orb. reflexivity. }
    assert (L : (length l' < length l)%nat).
    { assert (Hk' : In (Meteoroid.ident k) (idents l)) by (apply Hin; left; reflexivity).
      unfold idents in Hk'. apply in_map_iff in Hk'. destruct Hk' as (m & Em & Hm).
      apply (filter_shorter _ l m Hm). rewrite Em, Nat.eqb_refl. reflexivity. }
    assert (Hin' : forall k', In k' ks -> In (Meteoroid.ident k') (idents l')).
    { intros k' Hk'. assert (H0 : In (Meteoroid.ident k') (idents l))
        by (apply Hin; right; exact Hk').
      unfold idents in *. apply in_map_iff in H0. destruct H0 as (m & Em & Hm).
      apply in_map_iff. exists m. split; [exact Em|]. subst l'.
      apply filter_In. split; [exact Hm|]. apply negb_true_iff, Nat.eqb_neq.
      rewrite Em. intro Heq. apply Hk. rewrite <- Heq. apply in_map. exact Hk'. }
    specialize (IH l' Hks Hin'). rewrite E. cbn [length]. lia.
Qed.

Lemma update_meteoroids_length (frames : Z) (speed : Q) (group : list Meteoroid.t) :
  (length (Sprite.update_meteoroids frames speed group) <= length group)%nat.
Proof.
  induction group as [|m l IH]; cbn [Sprite.update_meteoroids length]; [lia|].
  destruct (Meteoroid.update frames speed m) as [[|] m']; cbn [length]; lia.
Qed.

(** The budget of one frame: one point, and a bonus for each meteoroid
    that leaves the alive group through [hit]. *)
Lemma play_frame_budget (frames : Z) (g : Game) (i : Input) (g' : Game) :
  well_formed g -> play_frame frames g i = Running g' ->
  next_ident g' = (next_ident g + spawns (events i))%nat /\
  score g' = score g + 1 + 100 * Z.of_nat (length (destroyed g i)) /\
  (length (destroyed g i) + length (meteoroid_group g')
   <= length (meteoroid_group g) + spawns (events i))%nat.
Proof.
  intros W H. apply play_frame_running in H. destruct H as (g2 & H2 & _ & ->).
  unfold destroyed. rewrite H2.
  destruct (frame_inputs_spawns _ _ _ W H2) as [En El].
  pose proof (wf_before_collisions _ (wf_frame_inputs _ _ _ H2 W)) as Wc.
  destruct (frame_world_static frames (before_collisions g2))
    as (_ & _ & _ & _ & -> & ->).
  destruct (before_collisions_static g2) as (Es & _ & _ & _ & _ & -> & _).
  split; [exact En|].
  split.
  - rewrite resolve_hits_score, Es, (frame_inputs_score _ _ _ H2), length_map.
    reflexivity.
  - pose proof (keys_leave_alive (map fst (fst (hit_of (before_collisions g2))))
                  (meteoroid_group (before_collisions g2))
                  (groupcollide_keys_NoDup _ _ (wf_alive _ Wc))) as K.
    assert (Kin : forall k, In k (map fst (fst (hit_of (before_collisions g2)))) ->
                  In (Meteoroid.ident k) (idents (meteoroid_group (before_collisions g2)))).
    { intros k Hk. apply in_map. eapply groupcollide_keys_in. exact Hk. }
    specialize (K Kin). rewrite <- resolve_hits_alive in K.
    assert (A : (length (meteoroid_group (frame_world frames (before_collisions g2)))
                 <= length (meteoroid_group (resolve_hits (before_collisions g2))))%nat).
    { unfold frame_world, advance, prune.
      cbn [meteoroid_group set_bullets set_meteoroids].
      eapply Nat.le_trans; [apply update_meteoroids_length|].
      rewrite spritecollide_filter. cbn [snd]. apply filter_length_le. }
    assert (C : (length (meteoroid_group (before_collisions g2))
                 <= length (meteoroid_group g2))%nat).
    { rewrite before_collisions_alive. apply filter_length_le. }
    lia.
Qed.

Lemma run_budget (frames : Z) (inputs : list Input) :
  forall g g' : Game,
  well_formed g -> run frames g inputs = Running g' ->
  next_ident g' = (next_ident g + total_spawns inputs)%nat /\
  score g' = score g + Z.of_nat (length inputs)
             + 100 * Z.of_nat (total_destroyed frames g inputs) /\
  (total_destroyed frames g inputs + length (meteoroid_group g')
   <= length (meteoroid_group g) + total_spawns inputs)%nat.
Proof.
  induction inputs as [|i rest IH]; intros g g' W Hrun; cbn [run] in Hrun.
  - injection Hrun as <-. cbn [total_spawns total_destroyed length].
    split; [lia|]. split; [cbn; lia | lia].
  - cbn [total_destroyed].
    destruct (play_frame frames g i) as [g1| |] eqn:E; try discriminate.
    destruct (play_frame_budget _ _ _ _ W E) as (N1 & S1 & L1).
    destruct (IH g1 g' (wf_play_frame _ _ _ _ W E) Hrun) as (N2 & S2 & L2).
    cbn [total_spawns length]. split; [lia|].
    rewrite Nat2Z.inj_succ, Nat2Z.inj_add. split; lia.
Qed.




(** X8. After n frames of a run the score is n plus 100 for each meteoroid
    the bullets destroyed in these frames, counted as the keys of [hit]
    frame by frame; the meteoroids destroyed together with the ones alive
    are never more than the ones spawned; so the score lies between n and
    n + 100 * (number of spawn events). *)
Theorem score_is_bounded (frames t0 : Z) (inputs : list Input) (g : Game) :
  play frames t0 inputs = Running g ->
  let shot := total_destroyed frames (initial t0) inputs in
  score g = Z.of_nat (length inputs) + 100 * Z.of_nat shot /\
  (shot + length (meteoroid_group g) <= total_spawns inputs)%nat /\
  Z.of_nat (length inputs) <= score g
    <= Z.of_nat (length inputs) + 100 * Z.of_nat (total_spawns inputs).
Proof.
  intros H shot.
  destruct (run_budget frames inputs _ _ (wf_initial t0) H) as (_ & S & L).
  fold shot in S, L.
  cbn [initial score meteoroid_group length] in S, L.
  split; [lia|]. split; lia.
Qed.

(** X8 at the run of the shared bullet and the frame of the hit: 206
    frames and one meteoroid destroyed. *)
Lemma score_is_bounded_witness :
  play 8 0 (shot_then_two_spawns ++ [idle]) = Running after_the_hit /\
  total_destroyed 8 (initial 0) (shot_then_two_spawns ++ [idle]) = 1%nat /\
  score after_the_hit
  = Z.of_nat (length (shot_then_two_spawns ++ [idle]))
    + 100 * Z.of_nat (total_destroyed 8 (initial 0) (shot_then_two_spawns ++ [idle])) /\
  Z.of_nat (length (shot_then_two_spawns ++ [idle])) <= score after_the_hit
    <= Z.of_nat (length (shot_then_two_spawns ++ [idle]))
       + 100 * Z.of_nat (total_spawns (shot_then_two_spawns ++ [idle])).
Proof.
  assert (H : play 8 0 (shot_then_two_spawns ++ [idle]) = Running after_the_hit)
    by (vm_compute; reflexivity).
  assert (D : total_destroyed 8 (initial 0) (shot_then_two_spawns ++ [idle]) = 1%nat)
    by (vm_compute; reflexivity).
  split; [exact H|]. split; [exact D|]. split.
  - exact (proj1 (score_is_bounded 8 0 (shot_then_two_spawns ++ [idle])
                    after_the_hit H)).
  - exact (proj2 (proj2 (score_is_bounded 8 0 (shot_then_two_spawns ++ [idle])
                           after_the_hit H))).
Defined.

(** ** Meteoroids on their way (lines 637, 672 and 886) *)

(** A float between integers is cut to an integer between them. *)
Lemma int_of_float_bounds (q : Q) (k : Z) :
  ((inject_Z k <= q)%Q -> k <= int_of_float q) /\
  ((q <= inject_Z k)%Q -> int_of_float q <= k).
Proof.
  destruct q as [num den]. unfold int_of_float, Qle. cbn [Qnum Qden inject_Z].
  pose proof (Z.quot_rem' num (Z.pos den)) as E.
  pose proof (Z.rem_bound_abs num (Z.pos den) ltac:(lia)) as R.
  pose proof (Pos2Z.is_pos den) as P.
  split; intro H; nia.
Qed.

(** A float assigned to a [Rect] attribute is stored as an integer at most
    half a pixel away from it. *)
Lemma rect_int_nearest (q : Q) :
  (inject_Z (rect_int_of_float q) - (1 # 2) <= q)%Q /\
  (q <= inject_Z (rect_int_of_float q) + (1 # 2))%Q.
Proof.
  destruct q as [num den]. unfold rect_int_of_float, Qle_bool, int_of_float.
  cbn [Qnum Qden Qplus Qminus Qopp Z.opp].
  pose proof (Pos2Z.is_pos den) as P.
  rewrite !Pos2Z.inj_mul.
  destruct (Z.leb_spec (0 * Z.pos den) (num * 1)) as [H|H].
  - set (a := num * 2 + 1 * Z.pos den).
    pose proof (Z.quot_rem' a (Z.pos den * 2)) as E.
    pose proof (Z.rem_bound_pos a (Z.pos den * 2) ltac:(subst a; lia) ltac:(lia)) as R.
    set (t := Z.quot a (Z.pos den * 2)) in *. set (r := Z.rem a (Z.pos den * 2)) in *.
    unfold Qle. cbn [Qnum Qden Qplus Qminus Qopp inject_Z Z.opp].
    rewrite !Pos2Z.inj_mul. subst a. split; nia.
  - set (a := num * 2 + -1 * Z.pos den).
    pose proof (Z.quot_rem' a (Z.pos den * 2)) as E.
    pose proof (Z.rem_bound_abs a (Z.pos den * 2) ltac:(lia)) as R.
    pose proof (Z.rem_nonpos a (Z.pos den * 2) ltac:(lia) ltac:(subst a; lia)) as R'.
    set (t := Z.quot a (Z.pos den * 2)) in *. set (r := Z.rem a (Z.pos den * 2)) in *.
    unfold Qle. cbn [Qnum Qden Qplus Qminus Qopp inject_Z Z.opp].
    rewrite !Pos2Z.inj_mul. subst a. split; nia.
Qed.

(** A float between integers is stored in a [Rect] as an integer between
    them. *)
Lemma rect_int_bounds (q : Q) (k : Z) :
  ((inject_Z k <= q)%Q -> k <= rect_int_of_float q) /\
  ((q <= inject_Z k)%Q -> rect_int_of_float q <= k).
Proof.
  destruct (rect_int_nearest q) as [L U].
  set (t := rect_int_of_float q) in *.
  split; intro H.
  - pose proof (Qle_trans _ _ _ H U) as B. unfold Qle in B.
    cbn [Qnum Qden Qplus inject_Z] in B. lia.
  - pose proof (Qle_trans _ _ _ L H) as B. unfold Qle in B.
    cbn [Qnum Qden Qplus Qminus Qopp inject_Z Z.opp] in B. lia.
Qed.

Lemma update_rect (frames : Z) (speed : Q) (m : Meteoroid.t) :
  Meteoroid.ident (snd (Meteoroid.update frames speed m)) = Meteoroid.ident m /\
  Meteoroid.rect (snd (Meteoroid.update frames speed m)) =
  Rect.set_x (Meteoroid.rect m)
    (rect_int_of_float (inject_Z (Rect.x (Meteoroid.rect m)) - speed)).
Proof.
  unfold Meteoroid.update.
  destruct (Meteoroid.state m + 1 =? frames); [|destruct (0 <? Meteoroid.state m)];
    cbn; split; reflexivity.
Qed.

(** The alive meteoroids after the events: the old ones and the spawned. *)
Lemma handle_events_alive_members (es : list Event) (g g1 : Game) :
  handle_events g es = Some g1 ->
  forall m, In m (meteoroid_group g1) ->
    In m (meteoroid_group g) \/
    exists y, In (METEOROID_TIMER y) es /\ m = Meteoroid.init (Meteoroid.ident m) y.
Proof.
  revert g. induction es as [|e es IH]; intros g H m Hm; cbn [handle_events] in H.
  - injection H as <-. left. exact Hm.
  - destruct e; cbn [handle_event] in H; try discriminate;
      destruct (IH _ H m Hm) as [Ho|(y' & Hy & E)];
      try (left; exact Ho); try (right; exists y'; split; [right; exact Hy|exact E]).
    cbn [spawn meteoroid_group set_next_ident set_meteoroids] in Ho.
    unfold Sprite.add in Ho. destruct (Sprite.has _ _); [left; exact Ho|].
    apply in_app_iff in Ho. destruct Ho as [Ho|[<-|[]]]; [left; exact Ho|].
    right. exists y. split; [left; reflexivity|reflexivity].
Qed.

Lemma frame_inputs_alive_members (g : Game) (i : Input) (g2 : Game) :
  frame_inputs g i = Some g2 ->
  forall m, In m (meteoroid_group g2) ->
    In m (meteoroid_group g) \/
    exists y, In (METEOROID_TIMER y) (events i) /\
              m = Meteoroid.init (Meteoroid.ident m) y.
Proof.
  unfold frame_inputs.
  destruct (handle_events (begin_frame g) (events i)) as [g1|] eqn:E; [|discriminate].
  intro H. injection H as <-.
  destruct (handle_space_static (handle_keys g1 i) i) as (_ & _ & -> & _).
  destruct (handle_keys_static g1 i) as (_ & _ & -> & _).
  exact (handle_events_alive_members _ _ _ E).
Qed.

(** The alive meteoroids that get to the update: not taken by the border. *)
Lemma before_advance_alive (g2 : Game) (m : Meteoroid.t) :
  In m (meteoroid_group (before_advance g2)) ->
  In m (meteoroid_group g2) /\
  Rect.colliderect window_left (Meteoroid.rect m) = false.
Proof.
  unfold before_advance, prune.
  cbn [meteoroid_group set_bullets set_meteoroids].
  rewrite !spritecollide_filter. cbn [snd]. intro H.
  apply filter_In in H. destruct H as [H Hc]. apply negb_true_iff in Hc.
  split; [|exact Hc].
  rewrite resolve_hits_alive in H. apply filter_In in H. destruct H as [H _].
  rewrite before_collisions_alive in H. apply filter_In in H. tauto.
Qed.

Lemma handle_events_speed (es : list Event) (g g1 : Game) :
  handle_events g es = Some g1 ->
  (meteoroid_speed g1 ==
   meteoroid_speed g + inject_Z (Z.of_nat (fires es)) * (1 # 4))%Q.
Proof.
  revert g. induction es as [|e es IH]; intros g H; cbn [handle_events] in H.
  - injection H as <-. cbn. ring.
  - destruct e; cbn [handle_event] in H; try discriminate; apply IH in H;
      unfold fires in *; cbn [filter is_fire length]; try exact H.
    rewrite H. cbn [difficulty_increase meteoroid_speed set_difficulty].
    rewrite Nat2Z.inj_succ. unfold Z.succ. rewrite inject_Z_plus. ring.
Qed.

(** The speed of the update of a frame is the speed the frame ends with,
    the old one and a quarter for each escalation event. *)
Lemma play_frame_speed (frames : Z) (g : Game) (i : Input) (g' : Game) :
  play_frame frames g i = Running g' ->
  (meteoroid_speed g' ==
   meteoroid_speed g + inject_Z (Z.of_nat (fires (events i))) * (1 # 4))%Q.
Proof.
  intro H. apply play_frame_parts in H. destruct H as (g1 & He & ->).
  apply handle_events_speed in He.
  destruct (frame_world_static frames
              (before_collisions (handle_space (handle_keys g1 i) i)))
    as (_ & -> & _).
  destruct (before_collisions_static (handle_space (handle_keys g1 i) i))
    as (_ & _ & _ & -> & _).
  destruct (handle_space_static (handle_keys g1 i) i)
    as (_ & _ & _ & _ & -> & _).
  destruct (handle_keys_static g1 i) as (_ & _ & _ & _ & -> & _).
  exact He.
Qed.

Lemma fires_nonneg (n : nat) : (0 <= inject_Z (Z.of_nat n) * (1 # 4))%Q.
Proof.
  apply Qmult_le_0_compat; [|discriminate].
  change 0%Q with (inject_Z 0). rewrite <- Zle_Qle. lia.
Qed.

(** Where the members of the groups of [g'] were when the frame began. *)
Lemma play_frame_origin (frames : Z) (g : Game) (i : Input) (g' : Game) (m' : Meteoroid.t) :
  well_formed g -> play_frame frames g i = Running g' ->
  In m' (meteoroid_group g') \/ In m' (meteoroid_group_exploded g') ->
  exists m,
    (In m (meteoroid_group g) \/ In m (meteoroid_group_exploded g) \/
     exists y, In (METEOROID_TIMER y) (events i) /\
               m = Meteoroid.init (Meteoroid.ident m') y) /\
    Meteoroid.ident m = Meteoroid.ident m' /\
    Meteoroid.rect m' =
    Rect.set_x (Meteoroid.rect m)
      (rect_int_of_float (inject_Z (Rect.x (Meteoroid.rect m)) - meteoroid_speed g')).
Proof.
  intros W H Hm'. apply play_frame_running in H. destruct H as (g2 & H2 & _ & E').
  change (frame_world frames (before_collisions g2))
    with (advance frames (before_advance g2)) in E'.
  assert (Es : meteoroid_speed g' = meteoroid_speed (before_advance g2))
    by (rewrite E'; reflexivity).
  rewrite E' in Hm'.
  cbn [advance meteoroid_group meteoroid_group_exploded set_bullets set_meteoroids] in Hm'.
  pose proof (wf_frame_inputs _ _ _ H2 W) as W2.
  assert (Alive : forall k, In k (meteoroid_group g2) ->
            In k (meteoroid_group g) \/
            exists y, In (METEOROID_TIMER y) (events i) /\
                      k = Meteoroid.init (Meteoroid.ident k) y)
    by (apply frame_inputs_alive_members; exact H2).
  assert (Src : exists m0 m,
            Meteoroid.update frames (meteoroid_speed (before_advance g2)) m0 = (false, m') /\
            Meteoroid.ident m = Meteoroid.ident m0 /\
            Meteoroid.rect m = Meteoroid.rect m0 /\
            (In m (meteoroid_group g) \/ In m (meteoroid_group_exploded g) \/
             exists y, In (METEOROID_TIMER y) (events i) /\
                       m = Meteoroid.init (Meteoroid.ident m) y)).
  { destruct Hm' as [Hm'|Hm']; apply update_meteoroids_In in Hm';
      destruct Hm' as (m0 & Hm0 & U).
    - exists m0, m0. apply before_advance_alive in Hm0. destruct Hm0 as [Hm0 _].
      repeat split; [exact U|].
      destruct (Alive m0 Hm0) as [Ho|Hs]; [left; exact Ho | right; right; exact Hs].
    - rewrite (before_advance_exploded g2 W2) in Hm0. apply in_app_iff in Hm0.
      destruct Hm0 as [Ho|Hk].
      + exists m0, m0. rewrite (frame_inputs_exploded _ _ _ H2) in Ho.
        repeat split; [exact U|]. right. left. exact Ho.
      + apply in_map_iff in Hk. destruct Hk as (k & <- & Hk).
        apply groupcollide_keys_in in Hk. rewrite before_collisions_alive in Hk.
        apply filter_In in Hk. destruct Hk as [Hk _].
        exists (bump k), k. repeat split; [exact U|].
        destruct (Alive k Hk) as [Ho|Hs]; [left; exact Ho | right; right; exact Hs]. }
  destruct Src as (m0 & m & U & Ei & Er & Ho).
  destruct (update_rect frames (meteoroid_speed (before_advance g2)) m0) as [Ui Ur].
  rewrite U in Ui, Ur. cbn [snd] in Ui, Ur.
  assert (Eid : Meteoroid.ident m = Meteoroid.ident m') by congruence.
  exists m. split; [rewrite <- Eid; exact Ho|]. split; [exact Eid|].
  rewrite Ur, Er, Es. reflexivity.
Qed.

Lemma speed_at_least_4 (frames t0 : Z) (inputs : list Input) (g : Game) :
  play frames t0 inputs = Running g -> (4 <= meteoroid_speed g)%Q.
Proof.
  intro H.
  destruct (run_difficulty _ _ _ _ H (initial_timer_ok t0)) as (_ & _ & Hs).
  rewrite Hs. cbn [initial meteoroid_speed].
  rewrite <- (Qplus_0_r 4) at 1. apply Qplus_le_r. apply fires_nonneg.
Qed.

(** X9. In a run, a frame moves every meteoroid it keeps, alive or
    exploding, to the left and nowhere else: the height and the size stay
    as they were, the new x is an integer at most half a pixel away from
    the old x less the speed of the frame, and it is at least 4 pixels less
    than the old x. A meteoroid the frame spawned starts from the right
    window edge. *)
Theorem meteoroids_fly_left (frames t0 : Z) (inputs : list Input) (g : Game)
    (i : Input) (g' : Game) (m' : Meteoroid.t) :
  play frames t0 inputs = Running g ->
  play_frame frames g i = Running g' ->
  In m' (meteoroid_group g') \/ In m' (meteoroid_group_exploded g') ->
  exists m,
    (In m (meteoroid_group g) \/ In m (meteoroid_group_exploded g) \/
     exists y, In (METEOROID_TIMER y) (events i) /\
               m = Meteoroid.mk (Meteoroid.ident m') (Rect.mk windowwidth y 38 33) 0) /\
    Meteoroid.ident m = Meteoroid.ident m' /\
    Rect.y (Meteoroid.rect m') = Rect.y (Meteoroid.rect m) /\
    Rect.w (Meteoroid.rect m') = Rect.w (Meteoroid.rect m) /\
    Rect.h (Meteoroid.rect m') = Rect.h (Meteoroid.rect m) /\
    (inject_Z (Rect.x (Meteoroid.rect m')) - (1 # 2) <=
     inject_Z (Rect.x (Meteoroid.rect m)) - meteoroid_speed g')%Q /\
    (inject_Z (Rect.x (Meteoroid.rect m)) - meteoroid_speed g' <=
     inject_Z (Rect.x (Meteoroid.rect m')) + (1 # 2))%Q /\
    Rect.x (Meteoroid.rect m') <= Rect.x (Meteoroid.rect m) - 4.
Proof.
  intros Hrun Hstep Hm'.
  destruct (play_frame_origin frames g i g' m' (wf_play _ _ _ _ Hrun) Hstep Hm')
    as (m & Ho & Ei & Er).
  exists m. split; [exact Ho|]. split; [exact Ei|]. rewrite Er.
  cbn [Rect.set_x Rect.x Rect.y Rect.w Rect.h].
  do 3 (split; [reflexivity|]).
  split; [apply rect_int_nearest|]. split; [apply rect_int_nearest|].
  apply (proj2 (rect_int_bounds _ _)).
  assert (S4 : (4 <= meteoroid_speed g')%Q).
  { pose proof (speed_at_least_4 _ _ _ _ Hrun) as S.
    rewrite (play_frame_speed _ _ _ _ Hstep).
    rewrite <- (Qplus_0_r 4). apply Qplus_le_compat; [exact S|apply fires_nonneg]. }
  unfold Z.sub. rewrite inject_Z_plus, inject_Z_opp.
  apply Qplus_le_r. apply Qopp_le_compat. exact S4.
Qed.

(** X9 at the frame after the shared bullet: the meteoroid left alive. *)
Lemma meteoroids_fly_left_witness :
  play 8 0 (shot_then_two_spawns ++ [idle]) = Running after_the_hit /\
  play_frame 8 after_the_hit idle = Running after_the_hit_next /\
  exists m,
    Meteoroid.ident m = 1%nat /\
    1268 <= Rect.x (Meteoroid.rect m) - 4.
Proof.
  assert (H1 : play 8 0 (shot_then_two_spawns ++ [idle]) = Running after_the_hit)
    by (vm_compute; reflexivity).
  assert (H2 : play_frame 8 after_the_hit idle = Running after_the_hit_next)
    by (vm_compute; reflexivity).
  split; [exact H1|]. split; [exact H2|].
  destruct (meteoroids_fly_left 8 0 (shot_then_two_spawns ++ [idle]) after_the_hit
              idle after_the_hit_next (Meteoroid.mk 1 (Rect.mk 1268 385 38 33) 0)
              H1 H2 (or_introl (or_introl eq_refl)))
    as (m & _ & Ei & _ & _ & _ & _ & _ & Hx).
  exists m. split; [exact Ei | exact Hx].
Defined.

(** The left border takes every meteoroid of the usual size between
    x = -133 and x = -86. *)
Lemma left_border_catches (m : Meteoroid.t) :
  -133 <= Rect.x (Meteoroid.rect m) ->
  33 <= Rect.y (Meteoroid.rect m) <= windowheight - 33 ->
  Rect.w (Meteoroid.rect m) = 38 -> Rect.h (Meteoroid.rect m) = 33 ->
  Rect.colliderect window_left (Meteoroid.rect m) = false ->
  -85 <= Rect.x (Meteoroid.rect m).
Proof.
  destruct m as [n [mx my mw mh] st].
  cbn [Meteoroid.rect Rect.x Rect.y Rect.w Rect.h]. unfold windowheight.
  intros Hx Hy -> -> Hc.
  destruct (Z_le_gt_dec (-85) mx) as [Hle|Hgt]; [exact Hle|exfalso].
  unfold Rect.colliderect, window_left, Window.init, windowheight in Hc.
  cbn [Rect.x Rect.y Rect.w Rect.h Z.eqb orb] in Hc.
  rewrite !andb_false_iff, !Z.ltb_ge in Hc. lia.
Qed.

Lemma on_track_play_frame (frames : Z) (g : Game) (i : Input) (g' : Game) :
  heights_in_range i ->
  (4 <= meteoroid_speed g')%Q -> (meteoroid_speed g' <= 48)%Q ->
  (forall m, In m (meteoroid_group g) -> meteoroid_on_track m) ->
  play_frame frames g i = Running g' ->
  forall m', In m' (meteoroid_group g') -> meteoroid_on_track m'.
Proof.
  intros Hh S4 S48 Hg H m' Hm'.
  apply play_frame_running in H. destruct H as (g2 & H2 & _ & E').
  change (frame_world frames (before_collisions g2))
    with (advance frames (before_advance g2)) in E'.
  assert (Es : meteoroid_speed g' = meteoroid_speed (before_advance g2))
    by (rewrite E'; reflexivity).
  rewrite E' in Hm'.
  cbn [advance meteoroid_group set_bullets set_meteoroids] in Hm'.
  apply update_meteoroids_In in Hm'. destruct Hm' as (m & Hm & U).
  apply before_advance_alive in Hm. destruct Hm as [Hm Hc].
  assert (T : -133 <= Rect.x (Meteoroid.rect m) <= windowwidth /\
              33 <= Rect.y (Meteoroid.rect m) <= windowheight - 33 /\
              Rect.w (Meteoroid.rect m) = 38 /\ Rect.h (Meteoroid.rect m) = 33).
  { destruct (frame_inputs_alive_members _ _ _ H2 m Hm) as [Ho|(y & Hy & Em)].
    - destruct (Hg m Ho) as (Hx & Hy & Hw & Hhh). unfold windowwidth in *.
      repeat split; try assumption; lia.
    - rewrite Em. cbn [Meteoroid.init Meteoroid.rect Rect.x Rect.y Rect.w Rect.h].
      specialize (Hh y Hy). unfold windowwidth. repeat split; lia. }
  destruct T as (Hx & Hy & Hw & Hhh).
  pose proof (left_border_catches m (proj1 Hx) Hy Hw Hhh Hc) as Hl.
  destruct (update_rect frames (meteoroid_speed (before_advance g2)) m) as [_ Ur].
  rewrite U in Ur. cbn [snd] in Ur. rewrite <- Es in Ur.
  unfold meteoroid_on_track. rewrite Ur.
  cbn [Rect.set_x Rect.x Rect.y Rect.w Rect.h].
  split; [|repeat split; tauto || lia].
  split.
  - apply Z.le_trans with (Rect.x (Meteoroid.rect m) - 48); [lia|].
    apply (proj1 (rect_int_bounds _ _)).
    unfold Z.sub. rewrite inject_Z_plus, inject_Z_opp.
    apply Qplus_le_r. apply Qopp_le_compat. exact S48.
  - apply Z.le_trans with (Rect.x (Meteoroid.rect m) - 4); [|unfold windowwidth in *; lia].
    apply (proj2 (rect_int_bounds _ _)).
    unfold Z.sub. rewrite inject_Z_plus, inject_Z_opp.
    apply Qplus_le_r. apply Qopp_le_compat. exact S4.
Qed.

Lemma run_on_track (frames : Z) (inputs : list Input) :
  forall g g' : Game,
  (4 <= meteoroid_speed g)%Q ->
  (meteoroid_speed g + inject_Z (Z.of_nat (total_fires inputs)) * (1 # 4) <= 48)%Q ->
  (forall i, In i inputs -> heights_in_range i) ->
  (forall m, In m (meteoroid_group g) -> meteoroid_on_track m) ->
  run frames g inputs = Running g' ->
  forall m, In m (meteoroid_group g') -> meteoroid_on_track m.
Proof.
  induction inputs as [|i rest IH]; intros g g' S4 S48 Hh Hg Hrun; cbn [run] in Hrun.
  - injection Hrun as <-. exact Hg.
  - destruct (play_frame frames g i) as [g1| |] eqn:E; try discriminate.
    pose proof (play_frame_speed _ _ _ _ E) as Es.
    cbn [total_fires] in S48. rewrite Nat2Z.inj_add, inject_Z_plus in S48.
    assert (S4' : (4 <= meteoroid_speed g1)%Q).
    { rewrite Es. rewrite <- (Qplus_0_r 4).
      apply Qplus_le_compat; [exact S4|apply fires_nonneg]. }
    assert (S48' : (meteoroid_speed g1
                    + inject_Z (Z.of_nat (total_fires rest)) * (1 # 4) <= 48)%Q).
    { rewrite Es. eapply Qle_trans; [|exact S48]. apply Qle_lteq. right. ring. }
    apply (IH g1 g' S4' S48'); [intros j Hj; apply Hh; right; exact Hj | | exact Hrun].
    apply (on_track_play_frame frames g i g1); try assumption.
    + apply Hh. left. reflexivity.
    + eapply Qle_trans; [|exact S48'].
      rewrite <- (Qplus_0_r (meteoroid_speed g1)) at 1.
      apply Qplus_le_r. apply fires_nonneg.
Qed.

(** X10. As long as a run has handled at most 176 escalation events (the
    speed is 48 at most) and every spawn height is one that
    [random.uniform(33, windowheight - 33)] can give, every alive meteoroid
    is between the left border sprite and the right window edge:
    -133 <= x <= 1276, at the height it was spawned with and with its
    size of 38 x 33. No alive meteoroid gets past the left border. *)
Theorem meteoroids_end_at_left_border (frames t0 : Z) (inputs : list Input) (g : Game) :
  play frames t0 inputs = Running g ->
  (total_fires inputs <= 176)%nat ->
  (forall i, In i inputs -> heights_in_range i) ->
  forall m, In m (meteoroid_group g) ->
    meteoroid_on_track m /\
    Rect.x window_left - Rect.w (Meteoroid.rect m) < Rect.x (Meteoroid.rect m).
Proof.
  intros Hrun Hf Hh m Hm.
  assert (T : meteoroid_on_track m).
  { apply (run_on_track frames inputs (initial t0) g); try assumption.
    - cbn. discriminate.
    - cbn [initial meteoroid_speed].
      apply Qle_trans with (inject_Z 4 + inject_Z 176 * (1 # 4))%Q; [|discriminate].
      apply Qplus_le_r. apply Qmult_le_r; [reflexivity|].
      rewrite <- Zle_Qle. lia.
    - intros ? []. }
  split; [exact T|]. destruct T as (Hx & _ & Hw & _). rewrite Hw.
  change (Rect.x window_left) with (-96). lia.
Qed.

(** X10 at the run of the shared bullet. *)
Lemma meteoroids_end_at_left_border_witness :
  play 8 0 shot_then_two_spawns = Running two_meteoroids_one_bullet /\
  (total_fires shot_then_two_spawns <= 176)%nat /\
  meteoroid_on_track meteoroid_B.
Proof.
  assert (H1 : play 8 0 shot_then_two_spawns = Running two_meteoroids_one_bullet)
    by (vm_compute; reflexivity).
  assert (H2 : (total_fires shot_then_two_spawns <= 176)%nat)
    by (vm_compute; lia).
  assert (H3 : forall i, In i shot_then_two_spawns -> heights_in_range i).
  { intros i Hi y Hy. unfold shot_then_two_spawns in Hi. cbn [In] in Hi.
    destruct Hi as [<-|Hi]; [destruct Hy|].
    apply in_app_iff in Hi. destruct Hi as [Hi|Hi].
    - apply repeat_spec in Hi. subst i. destruct Hy.
    - cbn [In] in Hi. destruct Hi as [<-|[<-|[]]];
        cbn [events spawn_at In] in Hy; destruct Hy as [Hy|[]];
        injection Hy as <-; unfold windowheight; lia. }
  split; [exact H1|]. split; [exact H2|].
  exact (proj1 (meteoroids_end_at_left_border 8 0 shot_then_two_spawns
                  two_meteoroids_one_bullet H1 H2 H3 meteoroid_B
                  (or_intror (or_introl eq_refl)))).
Defined.

(** * Properties of the background, the menu and the highscore table *)

(** ** Game.animateBackground (lines 707-724) *)

Lemma int_of_float_nonpos (q : Q) :
  (q <= 0)%Q -> (q <= inject_Z (int_of_float q))%Q.
Proof.
  destruct q as [num den]. unfold int_of_float, Qle. cbn [Qnum Qden inject_Z].
  pose proof (Z.quot_rem' num (Z.pos den)) as E.
  pose proof (Pos2Z.is_pos den) as P.
  intro H. assert (N : num <= 0) by lia.
  pose proof (Z.rem_nonpos num (Z.pos den) ltac:(lia) N) as R.
  nia.
Qed.

Lemma scroll_layer_range (i : nat) (s : Q) :
  (- inject_Z Background.bg_width <= s <= 0)%Q ->
  (- inject_Z Background.bg_width <= Background.scroll_layer i s <= 0)%Q.
Proof.
  intros [Hl Hu]. unfold Background.scroll_layer.
  assert (C : (0 <= inject_Z (Z.of_nat i + 1) * (1 # 2))%Q).
  { apply Qmult_le_0_compat; [|discriminate].
    change 0%Q with (inject_Z 0). rewrite <- Zle_Qle. lia. }
  set (c := (inject_Z (Z.of_nat i + 1) * (1 # 2))%Q) in *.
  destruct (Qle_bool (Qabs (s - c)) (inject_Z Background.bg_width)) eqn:E.
  - apply Qle_bool_iff, Qabs_Qle_condition in E. destruct E as [E _].
    split; [exact E|].
    apply Qle_trans with (s - 0)%Q.
    + apply Qplus_le_r. apply Qopp_le_compat. exact C.
    + apply Qle_trans with s; [|exact Hu]. apply Qle_lteq. right. ring.
  - split; [|apply Qle_refl].
    apply Qle_trans with s; assumption.
Qed.

Lemma scroll_from_range (scroll : list Q) :
  forall i : nat,
  Forall (fun s => (- inject_Z Background.bg_width <= s <= 0)%Q) scroll ->
  Forall (fun s => (- inject_Z Background.bg_width <= s <= 0)%Q)
    (Background.scroll_from i scroll) /\
  length (Background.scroll_from i scroll) = length scroll.
Proof.
  induction scroll as [|s rest IH]; intros i H; cbn [Background.scroll_from length].
  - split; [constructor|reflexivity].
  - inversion H as [|? ? Hs Hr]; subst. destruct (IH (S i) Hr) as [F L].
    split; [|rewrite L; reflexivity].
    constructor; [apply scroll_layer_range; exact Hs | exact F].
Qed.

Lemma scroll_iter_range (layers n : nat) :
  Forall (fun s => (- inject_Z Background.bg_width <= s <= 0)%Q)
    (Nat.iter n Background.animateBackground (Background.init layers)) /\
  length (Nat.iter n Background.animateBackground (Background.init layers)) = layers.
Proof.
  induction n as [|n [F L]]; cbn [Nat.iter].
  - unfold Background.init. split; [|apply repeat_length].
    apply Forall_forall. intros s Hs. apply repeat_spec in Hs. subst s.
    split; discriminate.
  - destruct (scroll_from_range _ 0%nat F) as [F' L'].
    split; [exact F' | exact (eq_trans L' L)].
Qed.

(** X11. However often [Game.animateBackground] has run, there is one
    scroll offset for each layer and each offset s is between minus the
    width of the window and 0. So the two tiles drawn for a layer cover the
    window: the first starts at or left of x = 0, the second starts no
    later than the first one ends, and it ends at or right of the window's
    right edge. *)
Theorem background_covers_window (layers n : nat) (s : Q) :
  In s (Nat.iter n Background.animateBackground (Background.init layers)) ->
  Background.tiles = 2 /\
  length (Nat.iter n Background.animateBackground (Background.init layers)) = layers /\
  (- inject_Z windowwidth <= s <= 0)%Q /\
  Background.tile_x 0 s <= 0 /\
  Background.tile_x 1 s <= Background.tile_x 0 s + Background.bg_width /\
  windowwidth <= Background.tile_x 1 s + Background.bg_width.
Proof.
  intro Hs. destruct (scroll_iter_range layers n) as [F L].
  rewrite Forall_forall in F. specialize (F s Hs). destruct F as [Hl Hu].
  change Background.bg_width with windowwidth in *.
  split; [reflexivity|]. split; [exact L|]. split; [split; assumption|].
  unfold Background.tile_x. change Background.bg_width with windowwidth.
  assert (Q0 : (inject_Z (0 * windowwidth) + s <= inject_Z 0)%Q).
  { apply Qle_trans with (0 + 0)%Q; [|discriminate].
    apply Qplus_le_compat; [discriminate|exact Hu]. }
  split; [apply (proj2 (int_of_float_bounds _ _)); exact Q0|]. split.
  - apply (proj2 (int_of_float_bounds _ _)).
    rewrite inject_Z_plus.
    apply Qle_trans with ((inject_Z (0 * windowwidth) + s) + inject_Z windowwidth)%Q.
    + apply Qle_lteq. right. change (inject_Z (0 * windowwidth)) with 0%Q.
      change (1 * windowwidth) with windowwidth.
      generalize (inject_Z windowwidth). intro W. ring.
    + apply Qplus_le_l. apply int_of_float_nonpos. exact Q0.
  - assert (P : 0 <= int_of_float (inject_Z (1 * windowwidth) + s)).
    { apply (proj1 (int_of_float_bounds _ _)).
      apply Qle_trans with (inject_Z windowwidth + - inject_Z windowwidth)%Q.
      - apply Qle_lteq. right. generalize (inject_Z windowwidth). intro W. ring.
      - change (1 * windowwidth) with windowwidth. apply Qplus_le_r. exact Hl. }
    lia.
Qed.

(** X11 with three layers, after two calls: the second layer. *)
Lemma background_covers_window_witness :
  In (-8 # 4)%Q (Nat.iter 2 Background.animateBackground (Background.init 3)) /\
  Background.tile_x 0 (-8 # 4)%Q <= 0.
Proof.
  assert (H : In (-8 # 4)%Q
                (Nat.iter 2 Background.animateBackground (Background.init 3)))
    by (vm_compute; right; left; reflexivity).
  split; [exact H|].
  exact (proj1 (proj2 (proj2 (proj2 (background_covers_window 3 2 _ H))))).
Defined.

(** ** Menu.animateBackground (lines 248-266) *)

Lemma next_background_mod (images k : Z) :
  1 <= images ->
  Menu.next_background images (k mod images) = (k + 1) mod images.
Proof.
  intro H. unfold Menu.next_background.
  pose proof (Z.mod_pos_bound k images ltac:(lia)) as B.
  rewrite <- (Z.add_mod_idemp_l k 1 images) by lia.
  destruct (Z.leb_spec (images - 1) (k mod images)).
  - replace (k mod images + 1) with images by lia.
    rewrite Z.mod_same by lia. reflexivity.
  - rewrite (Z.mod_small (k mod images + 1)) by lia. reflexivity.
Qed.

Lemma animate_background_calls (images : Z) (flags : list bool) :
  1 <= images ->
  forall (m : Menu.t) (k : Z),
  Menu.bg_state m = k mod images ->
  Menu.bg_state (fold_left (fun m f => Menu.animateBackground images f m) flags m)
  = (k + Z.of_nat (switches flags)) mod images.
Proof.
  intro H. induction flags as [|f flags IH]; intros m k Hk; cbn [fold_left].
  - unfold switches. cbn. rewrite Z.add_0_r. exact Hk.
  - destruct f; unfold switches; cbn [filter length].
    + rewrite (IH _ (k + 1)).
      * fold (switches flags). f_equal. lia.
      * cbn [Menu.animateBackground Menu.bg_state]. rewrite Hk.
        apply next_background_mod. exact H.
    + apply IH. exact Hk.
Qed.

(** X12. With at least one menu background image, the image index
    [bg_state] is always a valid index: after any calls of
    [Menu.animateBackground], starting from a valid index, it is the old
    index plus the number of calls with [True], modulo the number of
    images. Calls with [False] leave it alone, and as many calls with
    [True] as there are images bring the same image back. *)
Theorem menu_background_cycles (images : Z) (flags : list bool) (m : Menu.t) :
  1 <= images ->
  0 <= Menu.bg_state m < images ->
  let m' := fold_left (fun m f => Menu.animateBackground images f m) flags m in
  Menu.bg_state m' = (Menu.bg_state m + Z.of_nat (switches flags)) mod images /\
  0 <= Menu.bg_state m' < images /\
  (Z.of_nat (switches flags) = images -> Menu.bg_state m' = Menu.bg_state m) /\
  (switches flags = 0%nat -> Menu.bg_state m' = Menu.bg_state m).
Proof.
  intros H Hm m'.
  assert (E : Menu.bg_state m'
              = (Menu.bg_state m + Z.of_nat (switches flags)) mod images).
  { apply animate_background_calls; [exact H|].
    symmetry. apply Z.mod_small. exact Hm. }
  split; [exact E|]. split; [rewrite E; apply Z.mod_pos_bound; lia|]. split.
  - intro Hn. rewrite E, Hn.
    rewrite <- (Z.mul_1_l images) at 1. rewrite Z.mod_add by lia.
    apply Z.mod_small. exact Hm.
  - intro Hn. rewrite E, Hn, Z.add_0_r. apply Z.mod_small. exact Hm.
Qed.

(** X12 with four images, from the fresh menu: five switches. *)
Lemma menu_background_cycles_witness :
  1 <= 4 /\
  0 <= Menu.bg_state (Menu.init (fun _ => (0, 0))) < 4 /\
  Menu.bg_state
    (fold_left (fun m f => Menu.animateBackground 4 f m)
       [true; false; true; true; true; false; true]
       (Menu.init (fun _ => (0, 0)))) = 1.
Proof.
  assert (H0 : 1 <= 4) by lia.
  assert (H1 : 0 <= Menu.bg_state (Menu.init (fun _ => (0, 0))) < 4)
    by (cbn; lia).
  split; [exact H0|]. split; [exact H1|].
  exact (proj1 (menu_background_cycles 4 [true; false; true; true; true; false; true]
                  (Menu.init (fun _ => (0, 0))) H0 H1)).
Defined.

(** ** The main menu (lines 286-321) *)





(** ** The options screen (lines 443-480) *)

Lemma music_square_off_back (p : Z * Z) :
  collidepoint (Rect.mk 230 190 50 50) p = true ->
  collidepoint (Rect.mk 100 550 175 55) p = false.
Proof.
  unfold collidepoint. cbn [Rect.x Rect.y Rect.w Rect.h].
  rewrite !andb_true_iff, !andb_false_iff, !Z.leb_le, !Z.ltb_lt, !Z.leb_gt, !Z.ltb_ge.
  lia.
Qed.





(** ** The scoreboard (lines 41-43, 336-341 and 505) *)

Lemma insert_desc_perm (x : Z) (l : list Z) :
  Permutation (Highscore.insert_desc x l) (x :: l).
Proof.
  induction l as [|y l IH]; cbn [Highscore.insert_desc]; [reflexivity|].
  destruct (y <? x); [reflexivity|].
  rewrite IH. apply perm_swap.
Qed.

Lemma insert_desc_sorted (x : Z) (l : list Z) :
  StronglySorted (fun a b => b <= a) l ->
  StronglySorted (fun a b => b <= a) (Highscore.insert_desc x l).
Proof.
  induction l as [|y l IH]; cbn [Highscore.insert_desc]; intro H.
  - constructor; constructor.
  - inversion H as [|? ? Hl Hy]; subst.
    destruct (Z.ltb_spec y x).
    + constructor; [exact H|]. constructor; [lia|].
      rewrite Forall_forall in *. intros z Hz. specialize (Hy z Hz). lia.
    + constructor; [apply IH; exact Hl|].
      rewrite Forall_forall in *. intros z Hz.
      apply (Permutation_in _ (insert_desc_perm x l)) in Hz.
      destruct Hz as [<-|Hz]; [lia|auto].
Qed.

Lemma order_by_score_desc_spec (rows : list Z) :
  Permutation (Highscore.order_by_score_desc rows) rows /\
  StronglySorted (fun a b => b <= a) (Highscore.order_by_score_desc rows).
Proof.
  unfold Highscore.order_by_score_desc.
  induction rows as [|x rows [P S]]; cbn [fold_right].
  - split; constructor.
  - split; [rewrite insert_desc_perm, P; reflexivity|].
    apply insert_desc_sorted. exact S.
Qed.

Lemma rows_after_records (scores older : list Z) :
  fold_left (fun r s => Highscore.record s r) scores (Highscore.create_database older)
  = older ++ [0; 0; 0] ++ scores.
Proof.
  assert (G : forall start,
            fold_left (fun r s => Highscore.record s r) scores start = start ++ scores).
  { induction scores as [|s scores IH]; intro start; cbn [fold_left].
    - rewrite app_nil_r. reflexivity.
    - rewrite IH. unfold Highscore.record. rewrite <- app_assoc. reflexivity. }
  rewrite G. unfold Highscore.create_database. rewrite <- app_assoc. reflexivity.
Qed.

(** X16. [menu.scoreboard] fails with an [IndexError] exactly when the
    table has fewer than three rows. When it shows three places, they are
    in descending order and they are the three best scores of the table:
    the rows are these three and others that are no better than the third
    place. A table made by [create_database], whatever scores the
    game-over screen recorded since, always has its three places. *)
Theorem scoreboard_shows_top_three (rows : list Z) :
  (Highscore.scoreboard rows = None <-> (length rows < 3)%nat) /\
  (forall a b c, Highscore.scoreboard rows = Some (a, b, c) ->
     c <= b <= a /\
     exists rest, Permutation rows (a :: b :: c :: rest) /\
                  forall r, In r rest -> r <= c) /\
  (forall older scores,
     rows = fold_left (fun r s => Highscore.record s r) scores
              (Highscore.create_database older) ->
     Highscore.scoreboard rows <> None).
Proof.
  destruct (order_by_score_desc_spec rows) as [P S].
  pose proof (Permutation_length P) as L.
  assert (N : Highscore.scoreboard rows = None <-> (length rows < 3)%nat).
  { unfold Highscore.scoreboard.
    destruct (Highscore.order_by_score_desc rows) as [|a [|b [|c rest]]];
      cbn [length] in L; split; intro H; try reflexivity; try discriminate; lia. }
  split; [exact N|]. split.
  - intros a b c H. unfold Highscore.scoreboard in H.
    destruct (Highscore.order_by_score_desc rows) as [|a' [|b' [|c' rest]]];
      try discriminate.
    injection H as -> -> ->.
    inversion S as [|? ? S1 F1]; subst. inversion S1 as [|? ? S2 F2]; subst.
    inversion S2 as [|? ? S3 F3]; subst.
    rewrite Forall_forall in F1, F2, F3.
    split; [split; [apply F2|apply F1]; cbn; auto|].
    exists rest. split; [symmetry; exact P | exact F3].
  - intros older scores E Hn. apply N in Hn.
    rewrite E, rows_after_records, !length_app in Hn. cbn [length] in Hn. lia.
Qed.

(** X16 at a table with two recorded scores. *)
Lemma scoreboard_shows_top_three_witness :
  Highscore.scoreboard
    (fold_left (fun r s => Highscore.record s r) [306; 12]
       (Highscore.create_database [])) = Some (306, 12, 0) /\
  0 <= 12 <= 306.
Proof.
  assert (H : Highscore.scoreboard
                (fold_left (fun r s => Highscore.record s r) [306; 12]
                   (Highscore.create_database [])) = Some (306, 12, 0))
    by reflexivity.
  split; [exact H|].
  exact (proj1 (proj1 (proj2 (scoreboard_shows_top_three _)) 306 12 0 H)).
Defined.

(** ** Button.draw (lines 184-191) *)

Lemma half_way (x d : Z) :
  0 <= d ->
  x <= rect_int_of_float (inject_Z x + inject_Z d / 2) <= x + d /\
  -1 <= 2 * (rect_int_of_float (inject_Z x + inject_Z d / 2) - x) - d <= 1.
Proof.
  intro H. destruct (rect_int_nearest (inject_Z x + inject_Z d / 2)) as [L U].
  set (t := rect_int_of_float (inject_Z x + inject_Z d / 2)) in *.
  unfold Qle in L, U.
  change (Qnum (inject_Z x + inject_Z d / 2)) with (x * 2 + d * 1 * 1) in L, U.
  change (Z.pos (Qden (inject_Z x + inject_Z d / 2))) with 2 in L, U.
  cbn [Qnum Qden Qplus Qminus Qopp inject_Z Z.opp] in L, U.
  lia.
Qed.

(** X17. A button draws its label inside itself whenever the label is no
    larger than the button: the label's rectangle keeps its size, lies
    within the button's rectangle, and is centred, the margins on the two
    sides differing by one pixel at most. *)
Theorem label_inside_button (x y : Z) (b : Button.t) :
  0 <= Rect.w (Text.rect (Button.button_text b)) <= Button.width b ->
  0 <= Rect.h (Text.rect (Button.button_text b)) <= Button.height b ->
  let label := Text.rect (Button.button_text (Button.draw x y b)) in
  let left_margin := Rect.x label - x in
  let right_margin := x + Button.width b - (Rect.x label + Rect.w label) in
  let top_margin := Rect.y label - y in
  let bottom_margin := y + Button.height b - (Rect.y label + Rect.h label) in
  Rect.w label = Rect.w (Text.rect (Button.button_text b)) /\
  Rect.h label = Rect.h (Text.rect (Button.button_text b)) /\
  0 <= left_margin /\ 0 <= right_margin /\
  0 <= top_margin /\ 0 <= bottom_margin /\
  -1 <= left_margin - right_margin <= 1 /\
  -1 <= top_margin - bottom_margin <= 1.
Proof.
  intros Hw Hh.
  cbn [Button.draw Button.button_text Text.draw Text.rect Rect.x Rect.y Rect.w Rect.h].
  destruct (half_way x (Button.width b - Rect.w (Text.rect (Button.button_text b)))
              ltac:(lia)) as [X1 X2].
  destruct (half_way y (Button.height b - Rect.h (Text.rect (Button.button_text b)))
              ltac:(lia)) as [Y1 Y2].
  cbv zeta. repeat split; lia.
Qed.

(** X17 at a menu button with a label of 61 x 20 pixels. *)
Lemma label_inside_button_witness :
  0 <= Rect.x (Text.rect (Button.button_text
                            (Button.draw 100 250 (Button.init 175 55 61 20)))) - 100.
Proof.
  refine (proj1 (proj2 (proj2 (label_inside_button 100 250
                                 (Button.init 175 55 61 20) _ _)))); cbn; lia.
Defined.
